(** * The [sscha] command-line driver and the mode-locking example input

    A shallow embedding of the artefacts of the repository:

    - the [sscha] script (argument parsing, reading of the namelist file,
      the calls into [SSCHA_Minimizer], saving and plotting), as a program
      in a small monad that threads the file system, records every external
      call in a trace and ends in a value, an uncaught exception or a
      [SystemExit];
    - [Examples/LockModes/simple_mode_locking.in], line by line, together
      with a recogniser for the namelist format;
    - the cells of the notebook [Tutorials/LaH10/VariableCellRelaxation.ipynb]
      that hold code of their own: the callback [print_spacegroup] and the
      guard that makes the directory of the ensembles.

    The script is Python 2 code: it passes [version = VERSION] to
    [argparse.ArgumentParser], a keyword that only Python 2.7 accepts.
    What the script calls and does not define is either modelled after the
    Python library ([os.path.exists], [open], [argparse]) or left as a
    parameter (the methods of the minimizer, gathered in [Library]). *)

From Stdlib Require Import ZArith String Ascii List DecimalString Lia.
From Stdlib Require Import DecimalZ DecimalPos.
From stdpp Require Import gmap strings list fin_maps.

Open Scope string_scope.
Open Scope list_scope.

(** ** Python values, exceptions and the file system *)

(** The Python values the script handles in its namespace. A float keeps
    the text of its literal: no arithmetic is done on it. *)
Inductive Value :=
| VNone
| VBool (b : bool)
| VStr (s : string)
| VFloat (literal : string).

Inductive Exn :=
| IOError (errno : Z) (strerror : string) (filename : string)
| TypeError (msg : string)
| AttributeError (name : string)
| LibraryError (name : string) (msg : string).

(** What [open] and [readlines] meet at a path. *)
Inductive Access := ReadOk | OpenDenied | ReadFails.

Inductive Node :=
| Dir
| File (acc : Access) (content : list string).

Abbreviation FS := (gmap string Node).

(** ** Traces *)

(** The calls that leave the script. *)
Inductive Call :=
| CExists (path : string)
| CError (message : string)
| CHelp
| CVersion
| CNew
| COpen (name : Value) (mode : string)
| CReadlines (name : string)
| CClose (name : string)
| CSetup (line_list : list string)
| CInit
| CRun
| CFinalize (verbose : Z)
| CSaveQe (prefix : string)
| CPlotResults (save_filename plot : Value)
| CSaveData (filename : string)
| CShowPlot.

Inductive Outcome :=
| Returned
| Raised (e : Exn)
| Exited (status : Z).

(** An event is recorded when a call completes, with the way it completed. *)
Definition Event : Type := Call * Outcome.

(** ** The monad of the script *)

Inductive Res (A : Type) :=
| Val (a : A)
| Raise (e : Exn)
| Exit (status : Z).
Arguments Val {A} a.
Arguments Raise {A} e.
Arguments Exit {A} status.

Inductive Result (A : Type) :=
| Returns (a : A)
| Raises (e : Exn).
Arguments Returns {A} a.
Arguments Raises {A} e.

Definition M (A : Type) : Type := FS -> Res A * FS * list Event.

Definition ret {A} (a : A) : M A := fun fs => (Val a, fs, []).

Definition bind {A B} (m : M A) (k : A -> M B) : M B := fun fs =>
  match m fs with
  | (Val a, fs1, t1) =>
      match k a fs1 with
      | (r, fs2, t2) => (r, fs2, t1 ++ t2)
      end
  | (Raise e, fs1, t1) => (Raise e, fs1, t1)
  | (Exit n, fs1, t1) => (Exit n, fs1, t1)
  end.

Notation "'let*' x ':=' m 'in' k" := (bind m (fun x => k))
  (at level 10, x pattern, m at level 100, k at level 200).

Definition raise {A} (e : Exn) : M A := fun fs => (Raise e, fs, []).
Definition exit {A} (status : Z) : M A := fun fs => (Exit status, fs, []).

(** [traced c m] runs [m] and records how the call [c] completed. *)
Definition traced {A} (c : Call) (m : M A) : M A := fun fs =>
  match m fs with
  | (Val a, fs1, t) => (Val a, fs1, t ++ [(c, Returned)])
  | (Raise e, fs1, t) => (Raise e, fs1, t ++ [(c, Raised e)])
  | (Exit n, fs1, t) => (Exit n, fs1, t ++ [(c, Exited n)])
  end.

(** An external call whose effect is a function of the file system. *)
Definition call {A} (c : Call) (f : FS -> Result A * FS) : M A :=
  traced c (fun fs =>
    match f fs with
    | (Returns a, fs1) => (Val a, fs1, [])
    | (Raises e, fs1) => (Raise e, fs1, [])
    end).

Definition result {A} (x : Res A * FS * list Event) : Res A := x.1.1.
Definition final_fs {A} (x : Res A * FS * list Event) : FS := x.1.2.
Definition trace {A} (x : Res A * FS * list Event) : list Event := x.2.

(** ** os.path and file objects *)

Definition path_exists (fs : FS) (p : string) : bool :=
  match fs !! p with
  | Some _ => true
  | None => false
  end.

Definition os_path_exists (p : string) : M bool :=
  call (CExists p) (fun fs => (Returns (path_exists fs p), fs)).

(** [open(name, mode)] for reading, the only mode the script uses: the
    file object is represented by the path. *)
Definition open_result (name : Value) (fs : FS) : Result string :=
  match name with
  | VStr p =>
      match fs !! p with
      | None => Raises (IOError 2 "No such file or directory" p)
      | Some Dir => Raises (IOError 21 "Is a directory" p)
      | Some (File OpenDenied _) => Raises (IOError 13 "Permission denied" p)
      | Some (File _ _) => Returns p
      end
  | _ => Raises (TypeError "coercing to Unicode: need string or buffer")
  end.

Definition open (name : Value) (mode : string) : M string :=
  call (COpen name mode) (fun fs => (open_result name fs, fs)).

Definition readlines_result (fp : string) (fs : FS) : Result (list string) :=
  match fs !! fp with
  | Some (File ReadOk content) => Returns content
  | _ => Raises (IOError 5 "Input/output error" fp)
  end.

Definition readlines (fp : string) : M (list string) :=
  call (CReadlines fp) (fun fs => (readlines_result fp fs, fs)).

Definition close (fp : string) : M unit :=
  call (CClose fp) (fun fs => (Returns tt, fs)).

(** ** argparse

    [argparse] is Python's standard library, not code of the repository.
    The model below follows [ArgumentParser.parse_args] of Python 2.7 for
    parsers that only have optional arguments. The command line is taken
    as the first pass of [parse_known_args] leaves it, each string of
    [sys.argv[1:]] classified as an option or as an argument. Values given
    inside the token of their option ([--opt=value], [-oVALUE]), single-dash
    flags written together and the [--] separator have no counterpart in
    the model. *)

Module argparse.

Inductive ActionKind := store | store_true | help_action | version_action.

Inductive Formatter := HelpFormatter | RawTextHelpFormatter.

(** A string of the command line as [_parse_optional] classifies it:
    ['O'], an option, known to the parser or not, under the option string
    it stands for (the full one when the user abbreviates a long option),
    or ['A'], an argument. *)
Inductive Token :=
| Opt (option_string : string)
| Arg (text : string).

(** One action of a parser: the keywords of [add_argument]. [dest] is
    [None] for the help and version actions, which store nothing. *)
Record Argument := {
  option_strings : list string;
  dest : option string;
  action : ActionKind;
  required : bool;
  metavar : option string;
  help : string;
  type : option (string -> M string);
}.

Record ArgumentParser := {
  prog : string;
  description : string;
  version : option Value;
  formatter_class : Formatter;
  actions : list Argument;
}.

Definition help_argument : Argument :=
  {| option_strings := ["-h"; "--help"]; dest := None; action := help_action;
     required := false; metavar := None;
     help := "show this help message and exit"; type := None |}.

Definition version_argument : Argument :=
  {| option_strings := ["-v"; "--version"]; dest := None;
     action := version_action; required := false; metavar := None;
     help := "show program's version number and exit"; type := None |}.

(** The constructor adds [-h/--help] ([add_help] defaults to [True]) and,
    when a version is given, [-v/--version]. *)
Definition new_ArgumentParser (prog description : string)
    (version : option Value) (formatter_class : Formatter) : ArgumentParser :=
  {| prog := prog; description := description; version := version;
     formatter_class := formatter_class;
     actions := help_argument ::
                match version with
                | Some _ => [version_argument]
                | None => []
                end |}.

Definition add_argument (a : Argument) (p : ArgumentParser) : ArgumentParser :=
  {| prog := prog p; description := description p; version := version p;
     formatter_class := formatter_class p;
     actions := actions p ++ [a] |}.

(** [parser.error(message)]: usage and message on stderr, exit status 2. *)
Definition error {A} (p : ArgumentParser) (message : string) : M A :=
  traced (CError message) (exit 2).

(** The help action prints the help and exits with status 0. *)
Definition print_help {A} (p : ArgumentParser) : M A :=
  traced CHelp (exit 0).

(** The version action formats [parser.version] as text before it exits;
    the formatter tests ['%(prog)' in text], which raises [TypeError] when
    the version is not a string. *)
Definition print_version {A} (p : ArgumentParser) : M A :=
  traced CVersion
    match version p with
    | Some (VStr _) => exit 0
    | Some (VFloat _) => raise (TypeError "argument of type 'float' is not iterable")
    | Some (VBool _) => raise (TypeError "argument of type 'bool' is not iterable")
    | _ => exit 0
    end.

(** The action an option string belongs to. *)
Definition find_action (p : ArgumentParser) (option_string : string)
    : option Argument :=
  List.find (fun a => existsb (String.eqb option_string) (option_strings a))
            (actions p).

Fixpoint join (sep : string) (l : list string) : string :=
  match l with
  | [] => ""
  | [x] => x
  | x :: r => x +:+ sep +:+ join sep r
  end.

Definition action_name (a : Argument) : string := join "/" (option_strings a).

Record ParseState := {
  namespace : gmap string Value;
  seen_actions : list string;
  extras : list string;
}.

Definition setattr (a : Argument) (v : Value) (ns : gmap string Value)
    : gmap string Value :=
  match dest a with
  | Some d => <[d := v]> ns
  | None => ns
  end.

Definition take_action (a : Argument) (v : Value) (st : ParseState) : ParseState :=
  {| namespace := setattr a v (namespace st);
     seen_actions := action_name a :: seen_actions st;
     extras := extras st |}.

Definition add_extra (tok : string) (st : ParseState) : ParseState :=
  {| namespace := namespace st; seen_actions := seen_actions st;
     extras := extras st ++ [tok] |}.

(** [_get_value]: the [type] callable converts the string. *)
Definition get_value (a : Argument) (arg_string : string) : M string :=
  match type a with
  | Some type_func => type_func arg_string
  | None => ret arg_string
  end.

(** The main loop of [parse_known_args]: options are consumed from left to
    right, each action is taken as soon as its option is matched, and what
    no option consumes is kept as an extra. A [store] action takes the
    next string when it is an argument. *)
Fixpoint consume (p : ArgumentParser) (arg_strings : list Token)
    (st : ParseState) : M ParseState :=
  match arg_strings with
  | [] => ret st
  | Arg s :: rest => consume p rest (add_extra s st)
  | Opt s :: rest =>
      match find_action p s with
      | None => consume p rest (add_extra s st)
      | Some a =>
          match action a with
          | store =>
              match rest with
              | Arg v :: rest' =>
                  let* x := get_value a v in
                  consume p rest' (take_action a (VStr x) st)
              | _ => error p ("argument " +:+ action_name a
                              +:+ ": expected one argument")
              end
          | store_true => consume p rest (take_action a (VBool true) st)
          | help_action => print_help p
          | version_action => print_version p
          end
      end
  end.

(** Defaults: [None] for a [store] action, [False] for [store_true]. *)
Definition default (a : Argument) : Value :=
  match action a with
  | store_true => VBool false
  | _ => VNone
  end.

Definition initial_state (p : ArgumentParser) : ParseState :=
  {| namespace := foldl (fun ns a => setattr a (default a) ns) ∅ (actions p);
     seen_actions := []; extras := [] |}.

Fixpoint check_required (p : ArgumentParser) (l : list Argument)
    (st : ParseState) : M unit :=
  match l with
  | [] => ret tt
  | a :: r =>
      if required a && negb (existsb (String.eqb (action_name a)) (seen_actions st))
      then error p ("argument " +:+ action_name a +:+ " is required")
      else check_required p r st
  end.

Definition parse_known_args (p : ArgumentParser) (args : list Token)
    : M (gmap string Value * list string) :=
  let* st := consume p args (initial_state p) in
  let* _ := check_required p (actions p) st in
  ret (namespace st, extras st).

Definition parse_args (p : ArgumentParser) (args : list Token)
    : M (gmap string Value) :=
  let* (ns, argv) := parse_known_args p args in
  match argv with
  | [] => ret ns
  | _ => error p ("unrecognized arguments: " +:+ join " " argv)
  end.

End argparse.

Import argparse.

(** ** The sscha library

    [sscha.SchaMinimizer.SSCHA_Minimizer] and the dynamical matrix it holds
    are not among the sources: the script is verified for every library.
    A method maps the minimizer and the file system to a result and a file
    system; [save_qe] stands for [minim.dyn.save_qe]. *)
Record Library := {
  Minim : Type;
  SSCHA_Minimizer : Minim;
  setup_from_namelist : list string -> Minim -> FS -> Result Minim * FS;
  init : Minim -> FS -> Result Minim * FS;
  run : Minim -> FS -> Result Minim * FS;
  finalize : Z -> Minim -> FS -> Result Minim * FS;
  dyn_path : Minim -> string;
  population : Minim -> Z;
  save_qe : string -> Minim -> FS -> Result unit * FS;
  minimization_data : Minim -> list string;
}.

(** ** The script *)

Definition PROG_NAME : string := "sscha".
Definition VERSION : Value := VFloat "0.1".
Definition DESCRIPTION : string := "




* * * * * * * * * * * * * * * * * * * * * * * * * * *
*                                                   *
* STOCHASTIC SELF-CONSISTENT HARMONIC APPROXIMATION *
*                                                   *
* * * * * * * * * * * * * * * * * * * * * * * * * * *



Wellcome to the SSCHA code. This script will start 
a SSCHA minimization according to the options parsed
from the input file.
Note, you can also use the SSCHA utilities directly 
by programming small and easy python scripts. 
Refer to the documentation for more details.



".

Definition is_valid_file (parser : ArgumentParser) (arg : string) : M string :=
  let* found := os_path_exists arg in
  if negb found
  then error parser ("The file " +:+ arg +:+ " does not exists!")
  else ret arg.

(** The parser as [ArgumentParser(...)] leaves it; [is_valid_file] uses its
    [error] method only. *)
Definition parser0 : ArgumentParser :=
  new_ArgumentParser PROG_NAME DESCRIPTION (Some VERSION) RawTextHelpFormatter.

Definition arg_filename : Argument :=
  {| option_strings := ["-i"]; help := "Path to the input file";
     dest := Some "filename"; required := true; metavar := Some "FILE";
     type := Some (fun x => is_valid_file parser0 x); action := store |}.

Definition arg_plot : Argument :=
  {| option_strings := ["--plot-results"]; help := "Plot the results";
     dest := Some "plot"; action := store_true;
     required := false; metavar := None; type := None |}.

Definition arg_save_data : Argument :=
  {| option_strings := ["--save-data"]; dest := Some "save_data";
     metavar := Some "FILE"; help := "Save the minimization details";
     action := store; required := false; type := None |}.

(** The arguments the script adds, in the order of its [add_argument] calls. *)
Definition driver_arguments : list Argument :=
  [arg_filename; arg_plot; arg_save_data].

Definition parser : ArgumentParser :=
  foldl (fun p a => add_argument a p) parser0 driver_arguments.

Definition getattr (ns : gmap string Value) (name : string) : M Value :=
  match ns !! name with
  | Some v => ret v
  | None => raise (AttributeError name)
  end.

(** The [%d] conversion of an integer. *)
Definition format_d (n : Z) : string := NilZero.string_of_int (Z.to_int n).

Definition nonempty (s : string) : bool :=
  match s with
  | EmptyString => false
  | String _ _ => true
  end.

Definition truthy (v : Value) : bool :=
  match v with
  | VNone => false
  | VBool b => b
  | VStr s => nonempty s
  | VFloat _ => true
  end.

Section Script.

Variable lib : Library.

(** The argument of [save_qe]: [minim.dyn_path + "_popuation%d_" %
    minim.population], where [%] binds tighter than [+]. *)
Definition qe_prefix (minim : Minim lib) : string :=
  dyn_path lib minim +:+ "_popuation"
  +:+ format_d (population lib minim) +:+ "_".

Definition new_minimizer : M (Minim lib) :=
  call CNew (fun fs => (Returns (SSCHA_Minimizer lib), fs)).

(** Modelled from the spec: [SSCHA_Minimizer.plot_results], whose body is
    not among the sources. The spec has the entry point optionally plot
    and save the results, [--plot-results] being a boolean flag and
    [--save-data FILE] an optional output path: the minimization data is
    written to [save_filename] unless that is [None], and the plot is
    shown when [plot] holds. *)
Definition plot_results (save_filename plot : Value) (minim : Minim lib)
    : M unit :=
  traced (CPlotResults save_filename plot)
    (let* _ :=
       match save_filename with
       | VNone => ret tt
       | VStr f =>
           call (CSaveData f) (fun fs =>
             (Returns tt, <[f := File ReadOk (minimization_data lib minim)]> fs))
       | _ => raise (TypeError "save_filename must be a string")
       end in
     if truthy plot
     then call CShowPlot (fun fs => (Returns tt, fs))
     else ret tt).

(** What the script does once the arguments are parsed. *)
Definition minimize (args : gmap string Value) : M unit :=
  let* minim := new_minimizer in
  let* filename := getattr args "filename" in
  let* fp := open filename "r" in
  let* line_list := readlines fp in
  let* _ := close fp in
  let* minim := call (CSetup line_list) (setup_from_namelist lib line_list minim) in
  let* minim := call CInit (init lib minim) in
  let* minim := call CRun (run lib minim) in
  let* minim := call (CFinalize 2) (finalize lib 2 minim) in
  let* _ := call (CSaveQe (qe_prefix minim))
                 (save_qe lib (qe_prefix minim) minim) in
  let* save_data := getattr args "save_data" in
  let* plot := getattr args "plot" in
  plot_results save_data plot minim.

(** The whole script, run on the command line that follows the program
    name. *)
Definition sscha (argv : list Token) : M unit :=
  let* args := parse_args parser argv in
  minimize args.

End Script.

(** ** The namelist format

    The parser of the namelist files belongs to the library and is not
    among the sources. The spec describes Fortran-style namelist text with
    group markers [&groupname ... &end], scalar and array key/value pairs
    and [!] comment lines. *)

Module Namelist.

Definition dq : string := String "034"%char EmptyString.
Definition tab : string := String "009"%char EmptyString.

Definition is_digit (c : ascii) : bool :=
  (48 <=? nat_of_ascii c)%nat && (nat_of_ascii c <=? 57)%nat.

Definition is_space (c : ascii) : bool :=
  match nat_of_ascii c with
  | 32 | 9 | 10 | 13 => true
  | _ => false
  end%nat.

Definition is_name_char (c : ascii) : bool :=
  let n := nat_of_ascii c in
  is_digit c || ((65 <=? n) && (n <=? 90))%nat
  || ((97 <=? n) && (n <=? 122))%nat || (n =? 95)%nat.

Fixpoint lstrip (l : list ascii) : list ascii :=
  match l with
  | c :: r => if is_space c then lstrip r else l
  | [] => []
  end.

Definition strip (l : list ascii) : list ascii :=
  rev (lstrip (rev (lstrip l))).

Definition is_name (l : list ascii) : bool :=
  match l with
  | [] => false
  | _ => forallb is_name_char l
  end.

(** The words of a text: maximal runs without white space. *)
Fixpoint words_aux (cur : list ascii) (l : list ascii) : list (list ascii) :=
  match l with
  | [] => match cur with [] => [] | _ => [rev cur] end
  | c :: r =>
      if is_space c
      then match cur with
           | [] => words_aux [] r
           | _ => rev cur :: words_aux [] r
           end
      else words_aux (c :: cur) r
  end.

Definition words (l : list ascii) : list (list ascii) := words_aux [] l.

Definition drop_sign (l : list ascii) : list ascii :=
  match l with
  | "+"%char :: r => r
  | "-"%char :: r => r
  | _ => l
  end.

Fixpoint span_digits (l : list ascii) : list ascii * list ascii :=
  match l with
  | c :: r =>
      if is_digit c
      then let (d, rest) := span_digits r in (c :: d, rest)
      else ([], l)
  | [] => ([], [])
  end.

Definition is_integer (l : list ascii) : bool :=
  match drop_sign l with
  | [] => false
  | d => forallb is_digit d
  end.

Definition is_exponent_mark (c : ascii) : bool :=
  match c with
  | "e"%char | "E"%char | "d"%char | "D"%char => true
  | _ => false
  end.

(** A number: sign, digits with an optional fraction, optional exponent. *)
Definition is_number (l : list ascii) : bool :=
  let (ip, r1) := span_digits (drop_sign l) in
  let (fp, r2) := match r1 with
                  | "."%char :: r => span_digits r
                  | _ => ([], r1)
                  end in
  match ip, fp with
  | [], [] => false
  | _, _ =>
      match r2 with
      | [] => true
      | e :: r3 => is_exponent_mark e && is_integer r3
      end
  end.

(** A scalar string: text between two double quotes or two apostrophes. *)
Definition is_quoted (l : list ascii) : bool :=
  match l with
  | q :: r =>
      (Ascii.eqb q "034" || Ascii.eqb q "'")
      && match rev r with
         | q' :: inner => Ascii.eqb q q' && forallb (fun c => negb (Ascii.eqb c q)) inner
         | [] => false
         end
  | [] => false
  end.

Definition is_fortran_bool (l : list ascii) : bool :=
  let s := string_of_list_ascii l in
  String.eqb s ".true." || String.eqb s ".false."
  || String.eqb s ".TRUE." || String.eqb s ".FALSE.".

(** An integer array: two or more integers separated by spaces. *)
Definition is_int_array (l : list ascii) : bool :=
  match words l with
  | (_ :: _ :: _) as ws => forallb is_integer ws
  | _ => false
  end.

Definition is_value (l : list ascii) : bool :=
  is_quoted l || is_number l || is_fortran_bool l || is_int_array l.

(** The text before and after the first [=]. *)
Fixpoint split_eq (l : list ascii) : option (list ascii * list ascii) :=
  match l with
  | [] => None
  | c :: r =>
      if Ascii.eqb c "="
      then Some ([], r)
      else match split_eq r with
           | Some (k, v) => Some (c :: k, v)
           | None => None
           end
  end.

(** The forms of a line. *)
Inductive LineKind :=
| Blank
| Comment
| GroupOpen (name : string)
| GroupEnd
| Assignment (key value : string)
| Malformed.

(** Modelled from the spec: the line forms of a namelist file, whose
    parser is not among the sources. A line is read after its leading and
    trailing white space is removed: it is blank, a comment that starts
    with [!], a group opener [&groupname], the group terminator [&end], or
    an assignment [key = value] whose value is a scalar string, a number,
    a Fortran boolean or a space-separated integer array. *)
Definition classify (line : string) : LineKind :=
  match strip (list_ascii_of_string line) with
  | [] => Blank
  | "!"%char :: _ => Comment
  | "&"%char :: name =>
      if String.eqb (string_of_list_ascii name) "end" then GroupEnd
      else if is_name name then GroupOpen (string_of_list_ascii name)
      else Malformed
  | text =>
      match split_eq text with
      | Some (k, v) =>
          if is_name (strip k) && is_value (strip v)
          then Assignment (string_of_list_ascii (strip k))
                          (string_of_list_ascii (strip v))
          else Malformed
      | None => Malformed
      end
  end.

(** The recogniser: [cur] is the group that is open, [closed] the groups
    terminated so far; the result is the list of the groups of the file. *)
Fixpoint check_namelist (cur : option string) (closed : list string)
    (lines : list string) : option (list string) :=
  match lines with
  | [] => match cur with
          | None => Some closed
          | Some _ => None
          end
  | line :: rest =>
      match classify line, cur with
      | Blank, _ => check_namelist cur closed rest
      | Comment, _ => check_namelist cur closed rest
      | GroupOpen g, None => check_namelist (Some g) closed rest
      | GroupEnd, Some g => check_namelist None (closed ++ [g]) rest
      | Assignment _ _, Some _ => check_namelist cur closed rest
      | _, _ => None
      end
  end.

(** Modelled from the spec: the group structure of a namelist file, whose
    parser is not among the sources. Every line is blank, a comment, a
    group opener, the group terminator, or an assignment inside a group;
    a group is opened before it is terminated, and a file ends outside of
    any group. [namelist cur lines groups]: read from the state [cur], the
    lines are well formed and terminate the groups [groups] in this order. *)
Inductive namelist : option string -> list string -> list string -> Prop :=
| nl_end : namelist None [] []
| nl_blank cur line rest gs :
    classify line = Blank ->
    namelist cur rest gs -> namelist cur (line :: rest) gs
| nl_comment cur line rest gs :
    classify line = Comment ->
    namelist cur rest gs -> namelist cur (line :: rest) gs
| nl_open g line rest gs :
    classify line = GroupOpen g ->
    namelist (Some g) rest gs -> namelist None (line :: rest) gs
| nl_assign g key value line rest gs :
    classify line = Assignment key value ->
    namelist (Some g) rest gs -> namelist (Some g) (line :: rest) gs
| nl_close g line rest gs :
    classify line = GroupEnd ->
    namelist None rest gs -> namelist (Some g) (line :: rest) (g :: gs).

End Namelist.

Import Namelist.

(** [Examples/LockModes/simple_mode_locking.in], one string per line. *)
Definition simple_mode_locking_in : list string := [
  "! MODE LOCKING EXAMPLE";
  "! ====================";
  "!";
  "! This is an example of constrained sscha minimization";
  "! only in a subspace identified by the vibrons of the ice.";
  "!";
  "! Run this code as usual:";
  "! sscha -i simple_mode_locking.in [--plot-results]";
  "! Use the last options if you want fancy plots of the minimization at the end.";
  "!";
  "! Note that a file frequencies.dat is generated";
  "! (thanks to save_freq_filename keyword)";
  "! You can plot the rows of the files to see how the frequencies are evolving";
  "! Example (using ipython):";
  "! >>> %pylab";
  "! >>> data = loadtxt(" +:+ dq +:+ "frequencies.dat" +:+ dq +:+ ")";
  "! >>> n_steps, n_freqs = shape(data)";
  "! >>> for i in range(n_freqs):";
  "! >>>     plot(data[:, i])";
  "! >>> show()";
  "!";
  "! This will show the frequencies (in Ry), as a function of the minimization.";
  "! You can show cm-1 using the cellconstructor.Phonons.RY_TO_CM constant";
  "!";
  "!";
  "! In the case of a supercell, the modes will be blocked in the whole q space.";
  "! Make sure they do not cross with other modes in the Brilluin zone.";
  "! To have a more detailed control on the modes to lock, use the python script instead";
  "! ";
  "!";
  EmptyString;
  "! Setup the standard sscha";
  "&inputscha";
  tab +:+ "fildyn_prefix = " +:+ dq +:+ "../ensemble_data_test/dyn" +:+ dq;
  tab +:+ "nqirr = 1";
  tab +:+ "supercell_size = 1 1 1";
  EmptyString;
  tab +:+ "data_dir = " +:+ dq +:+ "../ensemble_data_test" +:+ dq;
  EmptyString;
  tab +:+ "T = 0";
  tab +:+ "Tg = 0";
  EmptyString;
  tab +:+ "eq_energy = -144.40680397";
  tab +:+ "n_random = 100";
  tab +:+ "n_random_eff = 50";
  tab +:+ "population = 2";
  tab +:+ "meaningful_factor = 0.5";
  "&end";
  EmptyString;
  "! Now in this namespace we setup the mode locking and";
  "! some fancy printing";
  "&utils";
  tab +:+ "! We lock everithing but the last three modes";
  tab +:+ "! Note, we can do the opposite using the";
  tab +:+ "! mu_lock_start and mu_lock_end.";
  tab +:+ "mu_free_start = 30";
  tab +:+ "mu_free_end = 36";
  EmptyString;
  tab +:+ "! We project on the mode subspace only the dynamical matrix";
  tab +:+ "! leaving the structure to be optimized in all the space.";
  tab +:+ "project_dyn = .true.";
  tab +:+ "project_structure = .false.";
  EmptyString;
  tab +:+ "! Setup the file in which to save the frequency evolution";
  tab +:+ "save_freq_filename = " +:+ dq +:+ "frequencies.dat" +:+ dq;
  "&end"
].

(** ** A library and a file system to run the script on *)

(** A library whose [setup_from_namelist] rejects an input without a line,
    whose other methods return, and which writes nothing. *)
Definition toy_library : Library :=
  {| Minim := string * Z;
     SSCHA_Minimizer := ("", 0%Z);
     setup_from_namelist := fun line_list m fs =>
       match line_list with
       | [] => (Raises (LibraryError "ValueError" "no namelist in the input"), fs)
       | _ => (Returns ("dyn", 2%Z), fs)
       end;
     init := fun m fs => (Returns m, fs);
     run := fun m fs => (Returns m, fs);
     finalize := fun _ m fs => (Returns m, fs);
     dyn_path := fst;
     population := snd;
     save_qe := fun _ _ fs => (Returns tt, fs);
     minimization_data := fun _ => ["# Steps; Free energy +- error"] |}.

Definition toy_fs : FS :=
  {[ "simple_mode_locking.in" := File ReadOk simple_mode_locking_in;
     "input.in" := File ReadOk ["&inputscha"; "&end"];
     "empty.in" := File ReadOk [];
     "locked.in" := File OpenDenied ["&inputscha"; "&end"];
     "data" := Dir ]}.


(** ** The command lines the parser accepts *)

(** What one matched argument contributes. [IExtra] is a token that no
    option consumes. *)
Inductive Item :=
| IFile (path : string)
| IPlot
| ISave (filename : string)
| IExtra (tok : string).

(** [matches argv items]: the command line is the sequence [items], each
    spelled [-i FILE], [--plot-results], [--save-data FILE], or being a
    string that no option consumes: an argument, or an option that is no
    option string of the parser. *)
Inductive matches : list Token -> list Item -> Prop :=
| m_nil : matches [] []
| m_file p rest its :
    matches rest its ->
    matches (Opt "-i" :: Arg p :: rest) (IFile p :: its)
| m_plot rest its :
    matches rest its ->
    matches (Opt "--plot-results" :: rest) (IPlot :: its)
| m_save f rest its :
    matches rest its ->
    matches (Opt "--save-data" :: Arg f :: rest) (ISave f :: its)
| m_unknown s rest its :
    find_action parser s = None -> matches rest its ->
    matches (Opt s :: rest) (IExtra s :: its)
| m_stray s rest its :
    matches rest its ->
    matches (Arg s :: rest) (IExtra s :: its).

Definition apply_item (st : ParseState) (it : Item) : ParseState :=
  match it with
  | IFile p => take_action arg_filename (VStr p) st
  | IPlot => take_action arg_plot (VBool true) st
  | ISave f => take_action arg_save_data (VStr f) st
  | IExtra tok => add_extra tok st
  end.

Definition apply_items (its : list Item) (st : ParseState) : ParseState :=
  foldl apply_item st its.

Fixpoint files (its : list Item) : list string :=
  match its with
  | [] => []
  | IFile p :: r => p :: files r
  | _ :: r => files r
  end.

Fixpoint extra_tokens (its : list Item) : list string :=
  match its with
  | [] => []
  | IExtra t :: r => t :: extra_tokens r
  | _ :: r => extra_tokens r
  end.

Definition is_file (it : Item) : bool :=
  match it with
  | IFile _ => true
  | _ => false
  end.

(** The checks of [is_valid_file] that found their path. *)
Definition checks (paths : list string) : list Event :=
  map (fun p => (CExists p, Returned)) paths.

(** [b] comes right after [a] on the command line. *)
Definition adjacent (a b : Token) (argv : list Token) : Prop :=
  exists pre post, argv = pre ++ a :: b :: post.

(** The calls made while the arguments are parsed. *)
Definition parser_call (c : Call) : Prop :=
  match c with
  | CExists _ | CError _ | CHelp | CVersion => True
  | _ => False
  end.

(** How the parsing of a command line ends: the result and the last events
    of the trace, after the checks that succeeded. *)
Inductive parse_end (fs : FS) {A : Type} : Res A -> list Event -> Prop :=
| pe_value a : parse_end fs (Val a) []
| pe_missing p :
    path_exists fs p = false ->
    parse_end fs (Exit 2)
      [(CExists p, Returned);
       (CError ("The file " +:+ p +:+ " does not exists!"), Exited 2)]
| pe_error message : parse_end fs (Exit 2) [(CError message, Exited 2)]
| pe_help : parse_end fs (Exit 0) [(CHelp, Exited 0)]
| pe_version e : parse_end fs (Raise e) [(CVersion, Raised e)].

Definition is_plot (it : Item) : bool :=
  match it with
  | IPlot => true
  | _ => false
  end.

(** The path of the last [-i] and of the last [--save-data]: a later
    occurrence of an option overwrites the attribute. *)
Fixpoint last_file (its : list Item) : option string :=
  match its with
  | [] => None
  | it :: r =>
      match last_file r with
      | Some p => Some p
      | None => match it with IFile p => Some p | _ => None end
      end
  end.

Fixpoint last_save (its : list Item) : option string :=
  match its with
  | [] => None
  | it :: r =>
      match last_save r with
      | Some f => Some f
      | None => match it with ISave f => Some f | _ => None end
      end
  end.

Definition save_value (its : list Item) : Value :=
  match last_save its with
  | Some f => VStr f
  | None => VNone
  end.

(** ** The runs of the script after the arguments are parsed *)

Definition returned (calls : list Call) : list Event :=
  map (fun c => (c, Returned)) calls.

(** The steps of the script up to [finalize], for the input file [p] read
    as [line_list]. *)
Definition steps (p : string) (line_list : list string) : list Call :=
  [CNew; COpen (VStr p) "r"; CReadlines p; CClose p;
   CSetup line_list; CInit; CRun; CFinalize 2].

(** What [plot_results] records and writes. *)
Definition plot_events (save_filename plot : Value) : list Event :=
  match save_filename with
  | VStr f => [(CSaveData f, Returned)]
  | _ => []
  end
  ++ (if truthy plot then [(CShowPlot, Returned)] else [])
  ++ [(CPlotResults save_filename plot, Returned)].

Definition plot_fs (lib : Library) (save_filename : Value) (minim : Minim lib)
    (fs : FS) : FS :=
  match save_filename with
  | VStr f => <[f := File ReadOk (minimization_data lib minim)]> fs
  | _ => fs
  end.

(** [Run lib p sd pl fs r fs' t]: started in the file system [fs] with
    [args.filename = p], [args.save_data = sd] and [args.plot = pl], the
    script ends with [r], leaves the file system [fs'] and the trace [t].
    One rule for each call that can raise, one for the complete run. *)
Inductive Run (lib : Library) (p : string) (sd pl : Value) (fs : FS)
    : Res unit -> FS -> list Event -> Prop :=
| run_open e :
    open_result (VStr p) fs = Raises e ->
    Run lib p sd pl fs (Raise e) fs
      [(CNew, Returned); (COpen (VStr p) "r", Raised e)]
| run_readlines e :
    open_result (VStr p) fs = Returns p ->
    readlines_result p fs = Raises e ->
    Run lib p sd pl fs (Raise e) fs
      (returned [CNew; COpen (VStr p) "r"] ++ [(CReadlines p, Raised e)])
| run_setup l e fs1 :
    readlines_result p fs = Returns l ->
    setup_from_namelist lib l (SSCHA_Minimizer lib) fs = (Raises e, fs1) ->
    Run lib p sd pl fs (Raise e) fs1
      (returned [CNew; COpen (VStr p) "r"; CReadlines p; CClose p]
       ++ [(CSetup l, Raised e)])
| run_init l m1 fs1 e fs2 :
    readlines_result p fs = Returns l ->
    setup_from_namelist lib l (SSCHA_Minimizer lib) fs = (Returns m1, fs1) ->
    init lib m1 fs1 = (Raises e, fs2) ->
    Run lib p sd pl fs (Raise e) fs2
      (returned [CNew; COpen (VStr p) "r"; CReadlines p; CClose p; CSetup l]
       ++ [(CInit, Raised e)])
| run_run l m1 fs1 m2 fs2 e fs3 :
    readlines_result p fs = Returns l ->
    setup_from_namelist lib l (SSCHA_Minimizer lib) fs = (Returns m1, fs1) ->
    init lib m1 fs1 = (Returns m2, fs2) ->
    run lib m2 fs2 = (Raises e, fs3) ->
    Run lib p sd pl fs (Raise e) fs3
      (returned [CNew; COpen (VStr p) "r"; CReadlines p; CClose p; CSetup l;
                 CInit]
       ++ [(CRun, Raised e)])
| run_finalize l m1 fs1 m2 fs2 m3 fs3 e fs4 :
    readlines_result p fs = Returns l ->
    setup_from_namelist lib l (SSCHA_Minimizer lib) fs = (Returns m1, fs1) ->
    init lib m1 fs1 = (Returns m2, fs2) ->
    run lib m2 fs2 = (Returns m3, fs3) ->
    finalize lib 2 m3 fs3 = (Raises e, fs4) ->
    Run lib p sd pl fs (Raise e) fs4
      (returned [CNew; COpen (VStr p) "r"; CReadlines p; CClose p; CSetup l;
                 CInit; CRun]
       ++ [(CFinalize 2, Raised e)])
| run_save_qe l m1 fs1 m2 fs2 m3 fs3 m4 fs4 e fs5 :
    readlines_result p fs = Returns l ->
    setup_from_namelist lib l (SSCHA_Minimizer lib) fs = (Returns m1, fs1) ->
    init lib m1 fs1 = (Returns m2, fs2) ->
    run lib m2 fs2 = (Returns m3, fs3) ->
    finalize lib 2 m3 fs3 = (Returns m4, fs4) ->
    save_qe lib (qe_prefix lib m4) m4 fs4 = (Raises e, fs5) ->
    Run lib p sd pl fs (Raise e) fs5
      (returned (steps p l) ++ [(CSaveQe (qe_prefix lib m4), Raised e)])
| run_done l m1 fs1 m2 fs2 m3 fs3 m4 fs4 fs5 :
    readlines_result p fs = Returns l ->
    setup_from_namelist lib l (SSCHA_Minimizer lib) fs = (Returns m1, fs1) ->
    init lib m1 fs1 = (Returns m2, fs2) ->
    run lib m2 fs2 = (Returns m3, fs3) ->
    finalize lib 2 m3 fs3 = (Returns m4, fs4) ->
    save_qe lib (qe_prefix lib m4) m4 fs4 = (Returns tt, fs5) ->
    Run lib p sd pl fs (Val tt) (plot_fs lib sd m4 fs5)
      (returned (steps p l) ++ (CSaveQe (qe_prefix lib m4), Returned)
                               :: plot_events sd pl).





(** ** The notebook [Tutorials/LaH10/VariableCellRelaxation.ipynb]

    Most cells of the notebook configure objects of the libraries. Two
    hold code of their own: the callback [print_spacegroup], which records
    the space group after each step of the minimization, and the guard
    that creates the directory of the ensembles before the relaxation. The
    callback appends to the global list [space_groups], so a cell runs in
    a world made of that list and of the file system. *)

Module Notebook.

Record World := {
  space_groups : list string;
  disk : FS;
}.

(** The calls that leave the cells. A float keeps the text of its
    literal. *)
Inductive NCall :=
| GetSpacegroup (symprec : string)
| Open (name mode : string)
| Writelines (name : string) (lines : list string)
| Close (name : string)
| Exists (path : string)
| Mkdir (path : string).

Definition NEvent : Type := NCall * Outcome.

Definition NB (A : Type) : Type := World -> Res A * World * list NEvent.

Definition unit_ {A} (a : A) : NB A := fun w => (Val a, w, []).

Definition then_ {A B} (m : NB A) (k : A -> NB B) : NB B := fun w =>
  match m w with
  | (Val a, w1, t1) =>
      match k a w1 with
      | (r, w2, t2) => (r, w2, t1 ++ t2)
      end
  | (Raise e, w1, t1) => (Raise e, w1, t1)
  | (Exit n, w1, t1) => (Exit n, w1, t1)
  end.

Notation "'let+' x ':=' m 'in' k" := (then_ m (fun x => k))
  (at level 10, x pattern, m at level 100, k at level 200).

(** An external call whose effect is a function of the file system. *)
Definition os_call {A} (c : NCall) (f : FS -> Result A * FS) : NB A := fun w =>
  match f (disk w) with
  | (Returns a, fs) =>
      (Val a, {| space_groups := space_groups w; disk := fs |}, [(c, Returned)])
  | (Raises e, fs) =>
      (Raise e, {| space_groups := space_groups w; disk := fs |},
       [(c, Raised e)])
  end.

Definition outcome {A} (x : Res A * World * list NEvent) : Res A := x.1.1.
Definition world {A} (x : Res A * World * list NEvent) : World := x.1.2.
Definition events {A} (x : Res A * World * list NEvent) : list NEvent := x.2.

(** *** Text files

    A file keeps its lines as [readlines] returns them, each with the
    newline that ends it; its text is their concatenation. *)

Definition newline : string := String "010"%char EmptyString.

Fixpoint text (lines : list string) : string :=
  match lines with
  | [] => EmptyString
  | x :: r => x +:+ text r
  end.

(** The lines of a text, [cur] being the line read so far. *)
Fixpoint split_lines (cur : string) (t : string) : list string :=
  match t with
  | EmptyString =>
      match cur with
      | EmptyString => []
      | _ => [cur]
      end
  | String c r =>
      if Ascii.eqb c "010"
      then (cur +:+ newline) :: split_lines EmptyString r
      else split_lines (cur +:+ String c EmptyString) r
  end.

Definition splitlines (t : string) : list string := split_lines EmptyString t.

(** [open(name, "w")]: the file is created or truncated; the file object
    is represented by the path. *)
Definition open_w_result (name : string) (fs : FS) : Result string * FS :=
  match fs !! name with
  | Some Dir => (Raises (IOError 21 "Is a directory" name), fs)
  | Some (File OpenDenied _) =>
      (Raises (IOError 13 "Permission denied" name), fs)
  | Some (File acc _) => (Returns name, <[name := File acc []]> fs)
  | None => (Returns name, <[name := File ReadOk []]> fs)
  end.

Definition open (name mode : string) : NB string :=
  os_call (Open name mode) (open_w_result name).

(** [f.writelines(lines)]: the strings are written one after the other,
    after what the file object has written before. *)
Definition writelines_result (f : string) (lines : list string) (fs : FS)
    : Result unit * FS :=
  match fs !! f with
  | Some (File acc content) =>
      (Returns tt,
       <[f := File acc (splitlines (text content +:+ text lines))]> fs)
  | _ => (Raises (IOError 9 "Bad file descriptor" f), fs)
  end.

Definition writelines (f : string) (lines : list string) : NB unit :=
  os_call (Writelines f lines) (writelines_result f lines).

Definition close (f : string) : NB unit :=
  os_call (Close f) (fun fs => (Returns tt, fs)).

Definition os_path_exists (p : string) : NB bool :=
  os_call (Exists p) (fun fs => (Returns (path_exists fs p), fs)).

(** [os.mkdir(path)] raises [OSError] when something is at the path. It
    can also raise where [os.path.exists] finds nothing: at a broken
    symbolic link, in a directory that may not be written to, under a
    parent that does not exist. The file system of the model does not
    hold what decides this, so the decision is a parameter:
    [refusal fs path] is the exception of [os.mkdir] at a path where
    [os.path.exists] finds nothing, if there is one. *)
Definition mkdir_result (refusal : FS -> string -> option Exn) (path : string)
    (fs : FS) : Result unit * FS :=
  match fs !! path with
  | Some _ =>
      (Raises (LibraryError "OSError"
                 ("[Errno 17] File exists: '" +:+ path +:+ "'")), fs)
  | None =>
      match refusal fs path with
      | Some e => (Raises e, fs)
      | None => (Returns tt, <[path := Dir]> fs)
      end
  end.

Definition os_mkdir (refusal : FS -> string -> option Exn) (path : string)
    : NB unit :=
  os_call (Mkdir path) (mkdir_result refusal path).

(** *** The cells *)

(** [space_groups.append(x)] and the reading of the global list. *)
Definition append (x : string) : NB unit := fun w =>
  (Val tt, {| space_groups := space_groups w ++ [x]; disk := disk w |}, []).

Definition get_space_groups : NB (list string) := fun w =>
  (Val (space_groups w), w, []).

(** ["{}) {}\n".format(i+1, x)], [i] being the index [enumerate] gives. *)
Definition format_entry (i : nat) (x : string) : string :=
  format_d (Z.of_nat i + 1) +:+ ") " +:+ x +:+ newline.

(** [["{}) {}\n".format(i+1, x) for i,x in enumerate(space_groups)]]. *)
Definition entries (l : list string) : list string := imap format_entry l.

Section Cells.

(** The minimizer the relaxation hands to the callback, and the value of
    [spglib.get_spacegroup(minim.dyn.structure.get_ase_atoms(), 0.05)]
    for it, as the text that [format] writes for this value: neither the
    minimizer nor [spglib] is among the sources, and evaluating the
    expression may raise. *)
Variable Minim : Type.
Variable spacegroup : Minim -> Result string.

Definition get_spacegroup (minim : Minim) (symprec : string) : NB string :=
  os_call (GetSpacegroup symprec) (fun fs => (spacegroup minim, fs)).

Definition print_spacegroup (minim : Minim) : NB unit :=
  let+ spgroup := get_spacegroup minim "0.05" in
  let+ _ := append spgroup in
  let+ f := open "space_group.dat" "w" in
  let+ l := get_space_groups in
  let+ _ := writelines f (entries l) in
  close f.

(** The callback run on the minimizers of successive steps, which is what
    [relax.setup_custom_functions(custom_function_post = print_spacegroup)]
    asks of the relaxation; an exception ends the sequence. *)
Fixpoint after_each_step (ms : list Minim) : NB unit :=
  match ms with
  | [] => unit_ tt
  | m :: rest =>
      let+ _ := print_spacegroup m in
      after_each_step rest
  end.

(** [relax.vc_relax(fix_volume, static_bulk_modulus, ensemble_loc)], and
    what [os.mkdir] is refused. *)
Variable vc_relax : bool -> Z -> string -> NB unit.
Variable refusal : FS -> string -> option Exn.

(** [if not os.path.exists("ensembles"): os.mkdir("ensembles")]. *)
Definition make_ensembles : NB unit :=
  let+ found := os_path_exists "ensembles" in
  if negb found
  then os_mkdir refusal "ensembles"
  else unit_ tt.

Definition run_relaxation : NB unit :=
  let+ _ := make_ensembles in
  vc_relax true 120 "ensembles".

End Cells.

(** The symbols found for the minimizers of a sequence of steps, when one
    is found for each. *)
Fixpoint symbols {Minim} (spacegroup : Minim -> Result string)
    (ms : list Minim) : option (list string) :=
  match ms with
  | [] => Some []
  | m :: r =>
      match spacegroup m, symbols spacegroup r with
      | Returns s, Some ss => Some (s :: ss)
      | _, _ => None
      end
  end.

(** The access of the file that [open(name, "w")] leaves at the path. *)
Definition access_after_open (fs : FS) (name : string) : Access :=
  match fs !! name with
  | Some (File acc _) => acc
  | _ => ReadOk
  end.

(** [open(name, "w")] succeeds at the path. *)
Definition writable (fs : FS) (name : string) : bool :=
  match fs !! name with
  | Some Dir => false
  | Some (File OpenDenied _) => false
  | _ => true
  end.

Fixpoint no_newline (s : string) : bool :=
  match s with
  | EmptyString => true
  | String c r => negb (Ascii.eqb c "010") && no_newline r
  end.

(** A stand-in for [spglib] on minimizers that are strings: the symbol of
    a minimizer is the string itself, and the empty one is refused. *)
Definition toy_spacegroup (minim : string) : Result string :=
  if String.eqb minim "" then Raises (LibraryError "SpglibError" "no cell")
  else Returns minim.

Definition toy_world : World := {| space_groups := []; disk := toy_fs |}.

(** An operating system that refuses no [os.mkdir], and one that refuses
    them all for want of permission. *)
Definition willing : FS -> string -> option Exn := fun _ _ => None.

Definition unwilling : FS -> string -> option Exn := fun _ path =>
  Some (LibraryError "OSError"
          ("[Errno 13] Permission denied: '" +:+ path +:+ "'")).

End Notebook.

(** * Proofs *)

(** Case analysis on the membership of an event in an explicit trace. *)
Ltac in_cases :=
  repeat match goal with
         | H : _ \/ _ |- _ => destruct H
         | H : False |- _ => destruct H
         | H : (_, _) = (_, _) |- _ => injection H as <- <-
         end.

(** ** The argument parser *)

Lemma find_action_parser tok :
  find_action parser tok =
  if String.eqb tok "-h" || String.eqb tok "--help" then Some help_argument
  else if String.eqb tok "-v" || String.eqb tok "--version" then Some version_argument
  else if String.eqb tok "-i" then Some arg_filename
  else if String.eqb tok "--plot-results" then Some arg_plot
  else if String.eqb tok "--save-data" then Some arg_save_data
  else None.
Proof.
  unfold find_action. cbn.
  repeat rewrite orb_false_r.
  repeat match goal with |- context [String.eqb tok ?s] => destruct (String.eqb tok s) end; reflexivity.
Qed.

Lemma is_valid_file_eq p arg fs :
  is_valid_file p arg fs =
  if path_exists fs arg
  then (Val arg, fs, [(CExists arg, Returned)])
  else (Exit 2, fs,
        [(CExists arg, Returned);
         (CError ("The file " +:+ arg +:+ " does not exists!"), Exited 2)]).
Proof.
  unfold is_valid_file, bind, os_path_exists, call, traced, error, exit, ret.
  destruct (path_exists fs arg); reflexivity.
Qed.

Lemma bind_eq {A B} (m : M A) (k : A -> M B) fs :
  bind m k fs =
  match m fs with
  | (Val a, fs1, t1) => (result (k a fs1), final_fs (k a fs1), t1 ++ trace (k a fs1))
  | (Raise e, fs1, t1) => (Raise e, fs1, t1)
  | (Exit n, fs1, t1) => (Exit n, fs1, t1)
  end.
Proof.
  unfold bind, result, final_fs, trace.
  destruct (m fs) as [[[a|e|n] fs1] t1]; try reflexivity.
  destruct (k a fs1) as [[r fs2] t2]; reflexivity.
Qed.

Lemma consume_shape n : forall argv st fs,
  length argv <= n ->
  exists r qs tail,
    consume parser argv st fs = (r, fs, checks qs ++ tail)
    /\ Forall (fun q => path_exists fs q = true) qs
    /\ parse_end fs r tail
    /\ (forall st', r = Val st' ->
        exists its, matches argv its /\ files its = qs
                    /\ st' = apply_items its st).
Proof.
  induction n as [|n IH]; intros argv st fs Hlen.
  - destruct argv; [|simpl in Hlen; lia].
    exists (Val st), [], []. repeat split; try constructor.
    intros st' [= <-]. exists []. repeat split. constructor.
  - destruct argv as [|[tok|s] rest].
    { exists (Val st), [], []. repeat split; try constructor.
      intros st' [= <-]. exists []. repeat split. constructor. }
    2:{ simpl in Hlen. cbn [consume].
        destruct (IH rest (add_extra s st) fs ltac:(lia))
          as (r & qs & tail & E & Hq & He & Hv).
        exists r, qs, tail. repeat split; auto.
        intros st' ->. destruct (Hv _ eq_refl) as (its & Hm & Hf & ->).
        exists (IExtra s :: its). repeat split; auto. by constructor. }
    simpl in Hlen.
    cbn [consume].
    destruct (find_action parser tok) as [a|] eqn:Hfind.
    2:{ destruct (IH rest (add_extra tok st) fs ltac:(lia))
          as (r & qs & tail & E & Hq & He & Hv).
        exists r, qs, tail. repeat split; auto.
        intros st' ->. destruct (Hv _ eq_refl) as (its & Hm & Hf & ->).
        exists (IExtra tok :: its). repeat split; auto. by constructor. }
    rewrite find_action_parser in Hfind.
    destruct (String.eqb_spec tok "-h") as [->|?]; simpl in Hfind.
    { injection Hfind as <-. exists (Exit 0), [], [(CHelp, Exited 0)].
      repeat split; try constructor. discriminate. }
    destruct (String.eqb_spec tok "--help") as [->|?]; simpl in Hfind.
    { injection Hfind as <-. exists (Exit 0), [], [(CHelp, Exited 0)].
      repeat split; try constructor. discriminate. }
    destruct (String.eqb_spec tok "-v") as [->|?]; simpl in Hfind.
    { injection Hfind as <-. eexists _, [], [(CVersion, Raised _)].
      repeat split; try constructor. discriminate. }
    destruct (String.eqb_spec tok "--version") as [->|?]; simpl in Hfind.
    { injection Hfind as <-. eexists _, [], [(CVersion, Raised _)].
      repeat split; try constructor. discriminate. }
    destruct (String.eqb_spec tok "-i") as [->|?]; simpl in Hfind.
    { injection Hfind as <-. cbn [action arg_filename].
      destruct rest as [|[o|v] rest'];
        try (eexists (Exit 2), [], [(CError _, Exited 2)];
             repeat split; try constructor; discriminate).
      rewrite bind_eq. unfold get_value. cbn [type arg_filename].
      rewrite is_valid_file_eq.
      destruct (path_exists fs v) eqn:Hex.
      2:{ eexists (Exit 2), [], _. repeat split; [constructor|by constructor|discriminate]. }
      simpl in Hlen.
      destruct (IH rest' (take_action arg_filename (VStr v) st) fs ltac:(lia))
        as (r & qs & tail & E & Hq & He & Hv).
      rewrite E. exists r, (v :: qs), tail. repeat split; auto.
      intros st' ->. destruct (Hv _ eq_refl) as (its & Hm & Hf & ->).
      exists (IFile v :: its). repeat split; auto.
      - by constructor.
      - simpl. by rewrite Hf. }
    destruct (String.eqb_spec tok "--plot-results") as [->|?]; simpl in Hfind.
    { injection Hfind as <-. cbn [action arg_plot].
      destruct (IH rest (take_action arg_plot (VBool true) st) fs ltac:(lia))
        as (r & qs & tail & E & Hq & He & Hv).
      exists r, qs, tail. repeat split; auto.
      intros st' ->. destruct (Hv _ eq_refl) as (its & Hm & Hf & ->).
      exists (IPlot :: its). repeat split; auto. by constructor. }
    destruct (String.eqb_spec tok "--save-data") as [->|?]; simpl in Hfind; [|discriminate].
    injection Hfind as <-. cbn [action arg_save_data].
    destruct rest as [|[o|v] rest'];
      try (eexists (Exit 2), [], [(CError _, Exited 2)];
           repeat split; try constructor; discriminate).
    rewrite bind_eq. unfold get_value. cbn [type arg_save_data]. unfold ret at 1.
    simpl in Hlen.
    destruct (IH rest' (take_action arg_save_data (VStr v) st) fs ltac:(lia))
      as (r & qs & tail & E & Hq & He & Hv).
    rewrite E. exists r, qs, tail. repeat split; auto.
    intros st' ->. destruct (Hv _ eq_refl) as (its & Hm & Hf & ->).
    exists (ISave v :: its). repeat split; auto. by constructor.
Qed.

Lemma consume_complete argv its :
  matches argv its ->
  forall st fs,
    Forall (fun q => path_exists fs q = true) (files its) ->
    consume parser argv st fs = (Val (apply_items its st), fs, checks (files its)).
Proof.
  induction 1 as [|p rest its Hm IH|rest its Hm IH|f rest its Hm IH
                  |s rest its Hf Hm IH|s rest its Hm IH]; intros st fs Hall.
  - reflexivity.
  - simpl in Hall. apply Forall_cons in Hall as [Hp Hall].
    cbn [consume]. rewrite find_action_parser.
    cbn [String.eqb Ascii.eqb Bool.eqb orb action arg_filename].
    rewrite bind_eq. unfold get_value. cbn [type arg_filename].
    rewrite is_valid_file_eq, Hp. rewrite (IH _ _ Hall). reflexivity.
  - cbn [consume]. rewrite find_action_parser.
    cbn [String.eqb Ascii.eqb Bool.eqb orb action arg_plot].
    apply (IH _ _ Hall).
  - cbn [consume]. rewrite find_action_parser.
    cbn [String.eqb Ascii.eqb Bool.eqb orb action arg_save_data].
    rewrite bind_eq. unfold get_value. cbn [type arg_save_data]. unfold ret at 1.
    rewrite (IH _ _ Hall). reflexivity.
  - cbn [consume]. rewrite Hf. apply (IH _ _ Hall).
  - cbn [consume]. apply (IH _ _ Hall).
Qed.

(** A well-formed beginning of the command line is consumed before the
    rest is looked at. *)
Lemma consume_app pre its :
  matches pre its ->
  forall rest st fs,
    Forall (fun q => path_exists fs q = true) (files its) ->
    consume parser (pre ++ rest) st fs
    = (result (consume parser rest (apply_items its st) fs),
       final_fs (consume parser rest (apply_items its st) fs),
       checks (files its) ++ trace (consume parser rest (apply_items its st) fs)).
Proof.
  induction 1 as [|p pre its Hm IH|pre its Hm IH|f pre its Hm IH
                  |s pre its Hf Hm IH|s pre its Hm IH]; intros rest st fs Hall.
  - simpl. by destruct (consume parser rest st fs) as [[r f] t].
  - simpl in Hall. apply Forall_cons in Hall as [Hp Hall].
    simpl app. cbn [consume]. rewrite find_action_parser.
    cbn [String.eqb Ascii.eqb Bool.eqb orb action arg_filename].
    rewrite bind_eq. unfold get_value. cbn [type arg_filename].
    rewrite is_valid_file_eq, Hp. rewrite (IH _ _ _ Hall). reflexivity.
  - simpl app. cbn [consume]. rewrite find_action_parser.
    cbn [String.eqb Ascii.eqb Bool.eqb orb action arg_plot].
    apply (IH _ _ _ Hall).
  - simpl app. cbn [consume]. rewrite find_action_parser.
    cbn [String.eqb Ascii.eqb Bool.eqb orb action arg_save_data].
    rewrite bind_eq. unfold get_value. cbn [type arg_save_data]. unfold ret at 1.
    rewrite (IH _ _ _ Hall). reflexivity.
  - simpl app. cbn [consume]. rewrite Hf. apply (IH _ _ _ Hall).
  - simpl app. cbn [consume]. apply (IH _ _ _ Hall).
Qed.

Lemma apply_items_cons it its st :
  apply_items (it :: its) st = apply_items its (apply_item st it).
Proof. reflexivity. Qed.

Lemma extras_apply_items its : forall st,
  extras (apply_items its st) = extras st ++ extra_tokens its.
Proof.
  induction its as [|it its IH]; intros st.
  - simpl. by rewrite app_nil_r.
  - rewrite apply_items_cons, IH. destruct it; simpl; try reflexivity.
    by rewrite <- app_assoc.
Qed.

Lemma seen_apply_items its : forall st,
  existsb (String.eqb "-i") (seen_actions (apply_items its st))
  = existsb is_file its || existsb (String.eqb "-i") (seen_actions st).
Proof.
  induction its as [|it its IH]; intros st; [reflexivity|].
  rewrite apply_items_cons, IH. destruct it; simpl; try reflexivity.
  by rewrite orb_true_r.
Qed.

Lemma existsb_is_file its : existsb is_file its = false <-> files its = [].
Proof.
  induction its as [|[] its IH]; simpl; split; try done; tauto.
Qed.

Lemma check_required_parser st fs :
  check_required parser (actions parser) st fs =
  if existsb (String.eqb "-i") (seen_actions st)
  then (Val tt, fs, [])
  else (Exit 2, fs, [(CError "argument -i is required", Exited 2)]).
Proof.
  cbn. destruct (existsb _ _); reflexivity.
Qed.

Lemma parse_args_eq argv fs :
  parse_args parser argv fs =
  match consume parser argv (initial_state parser) fs with
  | (Val st, fs1, t) =>
      if existsb (String.eqb "-i") (seen_actions st)
      then match extras st with
           | [] => (Val (namespace st), fs1, t)
           | _ => (Exit 2, fs1,
                   t ++ [(CError ("unrecognized arguments: " +:+ join " " (extras st)),
                          Exited 2)])
           end
      else (Exit 2, fs1, t ++ [(CError "argument -i is required", Exited 2)])
  | (Raise e, fs1, t) => (Raise e, fs1, t)
  | (Exit n, fs1, t) => (Exit n, fs1, t)
  end.
Proof.
  unfold parse_args, parse_known_args, bind.
  destruct (consume parser argv (initial_state parser) fs) as [[[st|e|n] fs1] t];
    try reflexivity.
  rewrite check_required_parser.
  destruct (existsb _ _); [|reflexivity].
  unfold ret. destruct (extras st); cbn; by rewrite ?app_nil_r.
Qed.

(** The shape of every parse: the checks that found their path, then the
    end; a namespace is returned exactly for the well-formed command
    lines. *)
Lemma parse_args_shape argv fs :
  exists r qs tail,
    parse_args parser argv fs = (r, fs, checks qs ++ tail)
    /\ Forall (fun q => path_exists fs q = true) qs
    /\ parse_end fs r tail
    /\ (forall ns, r = Val ns ->
        tail = [] /\
        exists its, matches argv its /\ files its = qs
                    /\ extra_tokens its = [] /\ files its <> []
                    /\ ns = namespace (apply_items its (initial_state parser))).
Proof.
  destruct (consume_shape (length argv) argv (initial_state parser) fs (le_n _))
    as (r & qs & tail & E & Hq & He & Hv).
  rewrite parse_args_eq, E.
  destruct r as [st'|e|n].
  - destruct (Hv _ eq_refl) as (its & Hm & Hf & ->).
    inversion He; subst tail. rewrite app_nil_r.
    rewrite seen_apply_items, extras_apply_items. simpl. rewrite orb_false_r.
    destruct (existsb is_file its) eqn:Hfile.
    2:{ eexists (Exit 2), qs, _. split; [reflexivity|].
        split; [done|]. split; [apply pe_error|discriminate]. }
    destruct (extra_tokens its) as [|x xs] eqn:Hx.
    + eexists (Val _), qs, []. split; [by rewrite !app_nil_r|].
      split; [done|]. split; [apply pe_value|].
      intros ns [= <-]. split; [done|]. exists its. repeat split; auto.
      intros Hn. apply existsb_is_file in Hn. congruence.
    + eexists (Exit 2), qs, _. split; [reflexivity|].
      split; [done|]. split; [apply pe_error|discriminate].
  - exists (Raise e), qs, tail. repeat split; auto; try discriminate.
    inversion He; subst; constructor.
  - exists (Exit n), qs, tail. repeat split; auto; try discriminate.
    inversion He; subst; by constructor.
Qed.

Lemma parse_args_complete argv its fs :
  matches argv its -> extra_tokens its = [] -> files its <> [] ->
  Forall (fun q => path_exists fs q = true) (files its) ->
  parse_args parser argv fs
  = (Val (namespace (apply_items its (initial_state parser))), fs, checks (files its)).
Proof.
  intros Hm Hx Hf Hall.
  rewrite parse_args_eq, (consume_complete _ _ Hm _ _ Hall).
  rewrite seen_apply_items, extras_apply_items, Hx. simpl. rewrite orb_false_r.
  destruct (existsb is_file its) eqn:Hfile; [reflexivity|].
  apply existsb_is_file in Hfile. congruence.
Qed.

(** ** The namespace of a well-formed command line *)

Lemma ns_filename its : forall st,
  namespace (apply_items its st) !! "filename" =
  match last_file its with
  | Some p => Some (VStr p)
  | None => namespace st !! "filename"
  end.
Proof.
  induction its as [|it its IH]; intros st; [reflexivity|].
  rewrite apply_items_cons, IH. simpl. destruct (last_file its); [done|].
  destruct it; simpl; unfold setattr; simpl;
    rewrite ?lookup_insert_eq, ?lookup_insert_ne by done; done.
Qed.

Lemma ns_save_data its : forall st,
  namespace (apply_items its st) !! "save_data" =
  match last_save its with
  | Some f => Some (VStr f)
  | None => namespace st !! "save_data"
  end.
Proof.
  induction its as [|it its IH]; intros st; [reflexivity|].
  rewrite apply_items_cons, IH. simpl. destruct (last_save its); [done|].
  destruct it; simpl; unfold setattr; simpl;
    rewrite ?lookup_insert_eq, ?lookup_insert_ne by done; done.
Qed.

Lemma ns_plot its : forall st b,
  namespace st !! "plot" = Some (VBool b) ->
  namespace (apply_items its st) !! "plot" = Some (VBool (existsb is_plot its || b)).
Proof.
  induction its as [|it its IH]; intros st b Hb; [done|].
  rewrite apply_items_cons.
  destruct it; simpl.
  - apply IH. simpl. unfold setattr. simpl. by rewrite lookup_insert_ne.
  - rewrite (IH _ true); [by rewrite orb_true_r|].
    simpl. unfold setattr. simpl. by rewrite lookup_insert_eq.
  - apply IH. simpl. unfold setattr. simpl. by rewrite lookup_insert_ne.
  - apply IH. done.
Qed.

Lemma last_file_None its : last_file its = None <-> files its = [].
Proof.
  induction its as [|[] its IH]; simpl; split; try done;
    destruct (last_file its); try done; tauto.
Qed.

Lemma last_file_In its p : last_file its = Some p -> In p (files its).
Proof.
  induction its as [|it its IH]; simpl; [done|].
  destruct (last_file its) as [q|].
  - intros [= ->]. destruct it; simpl; auto.
  - destruct it; try done. intros [= ->]. by left.
Qed.

(** The attributes of the namespace of a well-formed command line. *)
Lemma namespace_lookup its p :
  last_file its = Some p ->
  let ns := namespace (apply_items its (initial_state parser)) in
  ns !! "filename" = Some (VStr p)
  /\ ns !! "save_data" = Some (save_value its)
  /\ ns !! "plot" = Some (VBool (existsb is_plot its)).
Proof.
  intros Hp ns. subst ns. rewrite ns_filename, ns_save_data, Hp.
  rewrite (ns_plot its _ false) by reflexivity. rewrite orb_false_r.
  unfold save_value. destruct (last_save its); done.
Qed.

(** ** Well-formed command lines, token by token *)

Lemma adjacent_here a b l : adjacent a b (a :: b :: l).
Proof. by exists [], l. Qed.

Lemma adjacent_cons a b x l : adjacent a b l -> adjacent a b (x :: l).
Proof. intros (pre & post & ->). by exists (x :: pre), post. Qed.

Lemma adjacent_inv a b x l :
  adjacent a b (x :: l) ->
  (x = a /\ exists l', l = b :: l') \/ adjacent a b l.
Proof.
  intros (pre & post & E). destruct pre as [|y pre]; simpl in E.
  - injection E as -> ->. left. eauto.
  - injection E as -> ->. right. by exists pre, post.
Qed.

Lemma matches_last_file argv its p :
  matches argv its -> last_file its = Some p ->
  adjacent (Opt "-i") (Arg p) argv.
Proof.
  induction 1 as [|q rest its Hm IH|rest its Hm IH|f rest its Hm IH
                  |s rest its Hf Hm IH|s rest its Hm IH]; simpl; try done;
    destruct (last_file its) as [q'|]; intros [= <-];
    try (by repeat apply adjacent_cons; apply IH).
  apply adjacent_here.
Qed.


Lemma matches_adjacent_file argv its p :
  matches argv its -> adjacent (Opt "-i") (Arg p) argv -> In p (files its).
Proof.
  induction 1 as [|q rest its Hm IH|rest its Hm IH|f rest its Hm IH
                  |s rest its Hf Hm IH|s rest its Hm IH]; intros Hadj.
  - destruct Hadj as ([|] & ? & ?); done.
  - apply adjacent_inv in Hadj as [[_ [l' [= -> ->]]]|Hadj]; [by left|].
    apply adjacent_inv in Hadj as [[? _]|Hadj]; [done|].
    right. auto.
  - apply adjacent_inv in Hadj as [[? _]|Hadj]; [done|]. simpl. auto.
  - apply adjacent_inv in Hadj as [[? _]|Hadj]; [done|].
    apply adjacent_inv in Hadj as [[? _]|Hadj]; [done|].
    simpl. auto.
  - apply adjacent_inv in Hadj as [[[= ->] _]|Hadj]; [by vm_compute in Hf|].
    simpl. auto.
  - apply adjacent_inv in Hadj as [[? _]|Hadj]; [done|]. simpl. auto.
Qed.



(** An option that is no option string of the parser is kept as an
    extra. *)
Lemma matches_unknown_option argv its s :
  matches argv its -> In (Opt s) argv ->
  find_action parser s = None ->
  In s (extra_tokens its).
Proof.
  intros Hm Hin Hnone.
  induction Hm as [|q rest its Hm IH|rest its Hm IH|f rest its Hm IH
                   |t rest its Hf Hm IH|t rest its Hm IH]; simpl in *.
  - done.
  - destruct Hin as [[= <-]|[?|Hin]]; [by vm_compute in Hnone|done|auto].
  - destruct Hin as [[= <-]|Hin]; [by vm_compute in Hnone|auto].
  - destruct Hin as [[= <-]|[?|Hin]]; [by vm_compute in Hnone|done|auto].
  - destruct Hin as [[= <-]|Hin]; [by left|auto].
  - destruct Hin as [?|Hin]; [done|auto].
Qed.

(** An argument that follows no [-i] and no [--save-data] is kept as an
    extra. *)
Lemma matches_head_argument s rest its :
  matches (Arg s :: rest) its -> In s (extra_tokens its).
Proof. inversion 1; subst. by left. Qed.

(** ** The script after the arguments are parsed *)

Lemma plot_results_eq lib sd pl m fs :
  sd = VNone \/ (exists f, sd = VStr f) ->
  plot_results lib sd pl m fs = (Val tt, plot_fs lib sd m fs, plot_events sd pl).
Proof.
  intros [->|[f ->]]; unfold plot_results, plot_events, plot_fs, traced, bind,
    call, traced, ret; destruct (truthy pl); reflexivity.
Qed.






Lemma minimize_Run lib ns fs p sd pl :
  ns !! "filename" = Some (VStr p) ->
  ns !! "save_data" = Some sd ->
  sd = VNone \/ (exists f, sd = VStr f) ->
  ns !! "plot" = Some pl ->
  Run lib p sd pl fs (result (minimize lib ns fs))
      (final_fs (minimize lib ns fs)) (trace (minimize lib ns fs)).
Proof.
  intros Hf Hs Hsd Hp.
  unfold minimize, new_minimizer, getattr, open, readlines, close.
  rewrite Hf, Hs, Hp.
  unfold bind, call, traced, ret.
  destruct (open_result (VStr p) fs) as [fp|e] eqn:Hopen.
  2:{ by apply run_open. }
  assert (fp = p) as ->.
  { unfold open_result in Hopen. destruct (fs !! p) as [[|[] ?]|]; congruence. }
  destruct (readlines_result p fs) as [l|e] eqn:Hread.
  2:{ by apply run_readlines. }
  destruct (setup_from_namelist lib l (SSCHA_Minimizer lib) fs) as [[m1|e] fs1] eqn:H1.
  2:{ by eapply run_setup. }
  destruct (init lib m1 fs1) as [[m2|e] fs2] eqn:H2.
  2:{ by eapply run_init. }
  destruct (run lib m2 fs2) as [[m3|e] fs3] eqn:H3.
  2:{ by eapply run_run. }
  destruct (finalize lib 2 m3 fs3) as [[m4|e] fs4] eqn:H4.
  2:{ by eapply run_finalize. }
  destruct (save_qe lib (qe_prefix lib m4) m4 fs4) as [[[]|e] fs5] eqn:H5.
  2:{ by eapply run_save_qe. }
  rewrite (plot_results_eq _ _ _ _ _ Hsd).
  by eapply run_done.
Qed.

(** ** The whole script *)

(** Every run either stops while the arguments are parsed, or parses a
    well-formed command line and then runs the minimization. *)
Lemma sscha_cases lib argv fs :
  exists qs,
    Forall (fun q => path_exists fs q = true) qs
    /\ ((exists tail,
           parse_end fs (result (sscha lib argv fs)) tail
           /\ (forall u, result (sscha lib argv fs) <> Val u)
           /\ (forall ns, result (parse_args parser argv fs) <> Val ns)
           /\ final_fs (sscha lib argv fs) = fs
           /\ trace (sscha lib argv fs) = checks qs ++ tail)
        \/ (exists its p t,
              matches argv its /\ files its = qs /\ extra_tokens its = []
              /\ last_file its = Some p
              /\ parse_args parser argv fs
                 = (Val (namespace (apply_items its (initial_state parser))),
                    fs, checks qs)
              /\ Run lib p (save_value its) (VBool (existsb is_plot its)) fs
                     (result (sscha lib argv fs)) (final_fs (sscha lib argv fs)) t
              /\ trace (sscha lib argv fs) = checks qs ++ t)).
Proof.
  destruct (parse_args_shape argv fs) as (r & qs & tail & E & Hq & He & Hv).
  exists qs. split; [done|].
  unfold sscha. rewrite bind_eq, E.
  destruct r as [ns|e|n].
  - right. destruct (Hv _ eq_refl) as (-> & its & Hm & Hf & Hx & Hne & ->).
    destruct (last_file its) as [p|] eqn:Hp.
    2:{ apply last_file_None in Hp. done. }
    destruct (namespace_lookup its p Hp) as (H1 & H2 & H3).
    exists its, p, (trace (minimize lib (namespace (apply_items its (initial_state parser))) fs)).
    rewrite app_nil_r in *. repeat split; auto.
    unfold result, final_fs; simpl.
    apply (minimize_Run lib _ fs p _ _ H1 H2); [|done].
    unfold save_value. destruct (last_save its); eauto.
  - left. exists tail. unfold result, final_fs, trace; simpl. repeat split; auto; try done.
    inversion He; subst; constructor.
  - left. exists tail. unfold result, final_fs, trace; simpl. repeat split; auto; try done.
    inversion He; subst; by constructor.
Qed.

Lemma In_checks c o qs : In (c, o) (checks qs) -> exists q, c = CExists q /\ o = Returned /\ In q qs.
Proof.
  unfold checks. rewrite in_map_iff. intros (q & [= <- <-] & Hq). eauto.
Qed.

(** After the arguments are parsed the script makes no call of the
    parser. *)
Lemma Run_calls lib p sd pl fs r fs' t c o :
  Run lib p sd pl fs r fs' t -> In (c, o) t -> ~ parser_call c.
Proof.
  intros HR Hin Hc.
  destruct HR; unfold returned, steps, plot_events in Hin; simpl in Hin;
    rewrite ?in_app_iff in Hin; simpl in Hin;
    repeat match goal with
           | H : _ \/ _ |- _ => destruct H
           | H : (_, _) = (_, _) |- _ => injection H as <- <-
           | H : In _ (match ?x with _ => _ end) |- _ => destruct x; simpl in H
           | H : In _ (if ?x then _ else _) |- _ => destruct x; simpl in H
           | H : False |- _ => destruct H
           end; try done.
Qed.

Lemma parse_end_calls fs {A} (r : Res A) tail c o :
  parse_end fs r tail -> In (c, o) tail -> parser_call c.
Proof.
  intros He Hin. inversion He; subst; simpl in Hin; in_cases; exact I.
Qed.

Lemma forall_exists_In fs qs p :
  Forall (fun q => path_exists fs q = true) qs -> In p qs ->
  path_exists fs p = true.
Proof. intros H Hin. eapply List.Forall_forall in H; eauto. Qed.

(** The run the header of the example input describes:
    [sscha -i simple_mode_locking.in --plot-results]. *)
Example run_of_the_example :
  sscha toy_library
    [Opt "-i"; Arg "simple_mode_locking.in"; Opt "--plot-results"] toy_fs
  = (Val tt, toy_fs,
     checks ["simple_mode_locking.in"]
     ++ returned (steps "simple_mode_locking.in" simple_mode_locking_in)
     ++ [(CSaveQe "dyn_popuation2_", Returned); (CShowPlot, Returned);
         (CPlotResults VNone (VBool true), Returned)]).
Proof. reflexivity. Qed.

(** C1, as amended. On every command line on which a path that does not
    exist follows [-i], the script makes no call but those of the
    argument parser (no [SSCHA_Minimizer()], no [open], no method of the
    minimizer), does not complete, leaves the file system as it was and
    ends where the parser ends: in [SystemExit] with status 2 after
    [parser.error], in [SystemExit] with status 0 after the help, or in
    the exception of [--version]. The failure is reported through
    [parser.error], with the message of the script and exit status 2,
    right after the existence check, in every run in which
    [is_valid_file] is handed the path; and it is handed the path
    whenever the parser has consumed what precedes this [-i] on the
    command line without stopping: arguments of the script whose paths
    exist, and strings that no option consumes. *)
Theorem C1_missing_input_is_a_parser_error
    (lib : Library) (argv : list Token) (fs : FS) (p : string) :
  path_exists fs p = false ->
  (adjacent (Opt "-i") (Arg p) argv
   \/ In (CExists p, Returned) (trace (sscha lib argv fs)) ->
     (forall c o, In (c, o) (trace (sscha lib argv fs)) -> parser_call c)
     /\ (forall u, result (sscha lib argv fs) <> Val u)
     /\ final_fs (sscha lib argv fs) = fs
     /\ exists qs tail,
          trace (sscha lib argv fs) = checks qs ++ tail
          /\ Forall (fun q => path_exists fs q = true) qs
          /\ parse_end fs (result (sscha lib argv fs)) tail)
  /\ (In (CExists p, Returned) (trace (sscha lib argv fs)) ->
        result (sscha lib argv fs) = Exit 2
        /\ exists t, trace (sscha lib argv fs) =
             t ++ [(CExists p, Returned);
                   (CError ("The file " +:+ p +:+ " does not exists!"), Exited 2)])
  /\ (forall pre its rest,
        argv = pre ++ Opt "-i" :: Arg p :: rest ->
        matches pre its ->
        Forall (fun q => path_exists fs q = true) (files its) ->
        In (CExists p, Returned) (trace (sscha lib argv fs))).
Proof.
  intros Hno.
  assert (Hreach : forall pre its rest,
        argv = pre ++ Opt "-i" :: Arg p :: rest ->
        matches pre its ->
        Forall (fun q => path_exists fs q = true) (files its) ->
        In (CExists p, Returned) (trace (sscha lib argv fs))).
  { intros pre its rest -> Hm Hall.
    unfold sscha. rewrite bind_eq, parse_args_eq, (consume_app _ _ Hm _ _ _ Hall).
    cbn [consume]. rewrite find_action_parser.
    cbn [String.eqb Ascii.eqb Bool.eqb orb action arg_filename].
    rewrite bind_eq. unfold get_value. cbn [type arg_filename].
    rewrite is_valid_file_eq, Hno. unfold result, final_fs, trace. simpl.
    rewrite in_app_iff. right. by left. }
  destruct (sscha_cases lib argv fs) as (qs & Hq & [(tail & He & Hr & _ & Hfs & Ht)
    |(its & p' & t & Hm & Hf & Hx & Hl & Hparse & HR & Ht)]).
  - split; [|split; [|exact Hreach]].
    + intros _. split; [|split; [exact Hr|split; [exact Hfs|]]].
      * intros c o. rewrite Ht, in_app_iff. intros [Hin|Hin].
        -- apply In_checks in Hin as (q & -> & _). exact I.
        -- by eapply parse_end_calls.
      * by exists qs, tail.
    + rewrite Ht, in_app_iff. intros [Hin|Hin].
      * apply In_checks in Hin as (q & [= <-] & _ & Hin).
        rewrite (forall_exists_In _ _ _ Hq Hin) in Hno. done.
      * inversion He as [a| q Hq' E1 E2|m E1 E2|E1 E2|e E1 E2]; subst tail; simpl in Hin;
          repeat match goal with
                 | H : _ \/ _ |- _ => destruct H
                 | H : False |- _ => destruct H
                 end; try done.
        match goal with H : (_, _) = (_, _) |- _ => injection H as -> end.
        split; [done|]. by exists (checks qs).
  - assert (Hnot : ~ In p qs).
    { intros Hin. rewrite (forall_exists_In _ _ _ Hq Hin) in Hno. done. }
    assert (Hev : ~ In (CExists p, Returned) (trace (sscha lib argv fs))).
    { rewrite Ht, in_app_iff. intros [Hin|Hin].
      - apply In_checks in Hin as (q & [= <-] & _ & Hin). done.
      - by apply (Run_calls _ _ _ _ _ _ _ _ _ _ HR Hin). }
    split; [|split; [done|exact Hreach]].
    intros [Hadj|Hin]; [|done].
    subst qs. destruct Hnot. by eapply matches_adjacent_file.
Qed.

Lemma C1_witness :
  path_exists toy_fs "missing.in" = false
  /\ In (CExists "missing.in", Returned)
        (trace (sscha toy_library [Opt "--plot-results"; Opt "-i"; Arg "missing.in"] toy_fs))
  /\ result (sscha toy_library [Opt "--plot-results"; Opt "-i"; Arg "missing.in"] toy_fs) = Exit 2
  /\ final_fs (sscha toy_library [Opt "--plot-results"; Opt "-i"; Arg "missing.in"] toy_fs) = toy_fs.
Proof.
  assert (H : path_exists toy_fs "missing.in" = false) by reflexivity.
  assert (Hin : In (CExists "missing.in", Returned)
            (trace (sscha toy_library [Opt "--plot-results"; Opt "-i"; Arg "missing.in"] toy_fs)))
    by (vm_compute; auto).
  destruct (C1_missing_input_is_a_parser_error toy_library
              [Opt "--plot-results"; Opt "-i"; Arg "missing.in"] toy_fs "missing.in" H)
    as (HA & HB & _).
  destruct (HA (or_intror Hin)) as (_ & _ & Hfs & _).
  destruct (HB Hin) as (Hr & _).
  repeat split; assumption.
Defined.

(** The counterexample to C1 as it is stated: with [--help] before it, a
    path that does not exist follows [-i] and no parser error is
    reported; the run prints the help and exits with status 0, the path
    never being checked. With [--save-data] before [-i] the error that is
    reported is another one. *)
Lemma C1_counterexample :
  path_exists toy_fs "missing.in" = false
  /\ adjacent (Opt "-i") (Arg "missing.in")
       [Opt "--help"; Opt "-i"; Arg "missing.in"]
  /\ sscha toy_library [Opt "--help"; Opt "-i"; Arg "missing.in"] toy_fs
     = (Exit 0, toy_fs, [(CHelp, Exited 0)])
  /\ (forall message o,
        ~ In (CError message, o)
            (trace (sscha toy_library
                      [Opt "--help"; Opt "-i"; Arg "missing.in"] toy_fs)))
  /\ sscha toy_library [Opt "--save-data"; Opt "-i"; Arg "missing.in"] toy_fs
     = (Exit 2, toy_fs,
        [(CError "argument --save-data: expected one argument", Exited 2)]).
Proof.
  split; [reflexivity|]. split; [by exists [Opt "--help"], []|].
  split; [reflexivity|]. split; [|reflexivity].
  intros message o [[=]|[]].
Qed.







(** C3, as amended. The script adds exactly three arguments with
    [add_argument]: [-i FILE], required, stored in [filename] after
    [is_valid_file] has checked the path; [--plot-results], a
    [store_true] flag stored in [plot]; [--save-data FILE], optional,
    stored in [save_data]. Besides them the parser has [-h/--help], which
    argparse adds by itself, and [-v/--version], which comes from the
    [version] keyword the script passes to [ArgumentParser], and nothing
    else. The parser returns a namespace exactly for the command lines
    made of the three arguments of the script, with [-i] present and each
    of its paths existing; an option that is none of the seven option
    strings, or an argument that follows neither [-i] nor [--save-data],
    makes it fail. *)
Theorem C3_arguments_of_the_parser :
  map (fun a => (option_strings a, dest a, action a, required a, metavar a))
      driver_arguments
  = [(["-i"], Some "filename", store, true, Some "FILE");
     (["--plot-results"], Some "plot", store_true, false, None);
     (["--save-data"], Some "save_data", store, false, Some "FILE")]
  /\ actions parser = help_argument :: version_argument :: driver_arguments
  /\ concat (map option_strings (actions parser))
     = ["-h"; "--help"; "-v"; "--version"; "-i"; "--plot-results"; "--save-data"]
  /\ (forall argv fs ns,
        result (parse_args parser argv fs) = Val ns <->
        exists its,
          matches argv its /\ extra_tokens its = [] /\ files its <> []
          /\ Forall (fun q => path_exists fs q = true) (files its)
          /\ ns = namespace (apply_items its (initial_state parser)))
  /\ (forall argv fs s ns,
        In (Opt s) argv ->
        ~ In s (concat (map option_strings (actions parser))) ->
        result (parse_args parser argv fs) <> Val ns)
  /\ (forall s rest fs ns,
        result (parse_args parser (Arg s :: rest) fs) <> Val ns).
Proof.
  split; [reflexivity|]. split; [reflexivity|]. split; [reflexivity|].
  assert (Hiff : forall argv fs ns,
        result (parse_args parser argv fs) = Val ns <->
        exists its,
          matches argv its /\ extra_tokens its = [] /\ files its <> []
          /\ Forall (fun q => path_exists fs q = true) (files its)
          /\ ns = namespace (apply_items its (initial_state parser))).
  { intros argv fs ns. split.
    - destruct (parse_args_shape argv fs) as (r & qs & tail & E & Hq & He & Hv).
      rewrite E. unfold result; simpl. intros ->.
      destruct (Hv _ eq_refl) as (_ & its & Hm & Hf & Hx & Hne & ->).
      exists its. subst qs. auto.
    - intros (its & Hm & Hx & Hne & Hall & ->).
      by rewrite (parse_args_complete _ _ _ Hm Hx Hne Hall). }
  split; [exact Hiff|]. split.
  - intros argv fs s ns Hin Hnot Hval.
    apply Hiff in Hval as (its & Hm & Hx & _).
    assert (Hnone : find_action parser s = None).
    { rewrite find_action_parser. simpl in Hnot.
      repeat match goal with
             | |- context [String.eqb s ?x] =>
                 destruct (String.eqb_spec s x) as [->|?]; [exfalso; tauto|]
             end. reflexivity. }
    pose proof (matches_unknown_option _ _ _ Hm Hin Hnone) as Hex.
    rewrite Hx in Hex. destruct Hex.
  - intros s rest fs ns Hval.
    apply Hiff in Hval as (its & Hm & Hx & _).
    pose proof (matches_head_argument _ _ _ Hm) as Hex.
    rewrite Hx in Hex. destruct Hex.
Qed.

Lemma C3_witness :
  exists ns,
    result (parse_args parser [Opt "--plot-results"; Opt "-i"; Arg "input.in"] toy_fs)
    = Val ns
    /\ ns !! "plot" = Some (VBool true).
Proof.
  destruct C3_arguments_of_the_parser as (_ & _ & _ & H & _).
  eexists. split.
  - apply H. exists [IPlot; IFile "input.in"].
    split; [apply m_plot; apply m_file; apply m_nil|].
    split; [reflexivity|]. split; [discriminate|].
    split; [|reflexivity]. constructor; [reflexivity|constructor].
  - reflexivity.
Defined.

(** The counterexample to C3 as it is stated: the command-line interface
    has option strings besides the three of the script. [-h] and [--help]
    are accepted and end the run with the help and exit status 0;
    [--version] is accepted as well and runs the version action, which the
    script itself requests with [version = VERSION]. *)
Lemma C3_counterexample :
  In "--help" (concat (map option_strings (actions parser)))
  /\ In "--version" (concat (map option_strings (actions parser)))
  /\ ~ In "--help" (concat (map option_strings driver_arguments))
  /\ sscha toy_library [Opt "-h"] toy_fs = (Exit 0, toy_fs, [(CHelp, Exited 0)])
  /\ sscha toy_library [Opt "--help"; Opt "-i"; Arg "input.in"] toy_fs
     = (Exit 0, toy_fs, [(CHelp, Exited 0)])
  /\ find_action parser "--version" = Some version_argument
  /\ (forall m o, ~ In (CError m, o) (trace (sscha toy_library [Opt "--version"] toy_fs)))
  /\ version parser = Some VERSION.
Proof.
  repeat split; try reflexivity; try (simpl; tauto).
  - simpl. intros H. repeat destruct H as [H|H]; try discriminate H; exact H.
  - intros m o. vm_compute. intros [H|H]; [discriminate H|exact H].
Qed.










Lemma finalize_not_before k p l :
  k < length (steps p l) -> ~ In (CFinalize 2) (take k (steps p l)).
Proof.
  unfold steps. simpl. intros Hk Hin.
  do 8 (destruct k as [|k]; [simpl in Hin; intuition discriminate|]).
  lia.
Qed.




(** ** The example input *)

Lemma check_namelist_sound lines : forall cur closed gs,
  check_namelist cur closed lines = Some gs ->
  exists gs', gs = closed ++ gs' /\ namelist cur lines gs'.
Proof.
  induction lines as [|line rest IH]; intros cur closed gs; simpl.
  - destruct cur; [done|]. intros [= <-]. exists []. split; [by rewrite app_nil_r|constructor].
  - destruct (classify line) eqn:Hc; destruct cur as [g|]; try done; intros H;
      apply IH in H as (gs' & -> & Hn).
    + exists gs'. split; [done|]. by apply nl_blank.
    + exists gs'. split; [done|]. by apply nl_blank.
    + exists gs'. split; [done|]. by apply nl_comment.
    + exists gs'. split; [done|]. by apply nl_comment.
    + exists gs'. split; [done|]. by eapply nl_open.
    + exists (g :: gs'). split; [by rewrite <- app_assoc|]. by apply nl_close.
    + exists gs'. split; [done|]. by eapply nl_assign.
Qed.

(** C7. [simple_mode_locking.in] conforms to the namelist grammar: each of
    its 66 lines is blank, a comment, a group opener, the terminator
    [&end] or an assignment of a string, a number, a Fortran boolean or an
    integer array inside a group; its groups are [&inputscha], opened on
    line 33 and terminated on line 48, and [&utils], opened on line 52 and
    terminated on line 66; no assignment lies outside of a group. *)
Theorem C7_example_is_a_namelist :
  namelist None simple_mode_locking_in ["inputscha"; "utils"]
  /\ length simple_mode_locking_in = 66
  /\ simple_mode_locking_in !! 32 = Some "&inputscha"
  /\ simple_mode_locking_in !! 47 = Some "&end"
  /\ simple_mode_locking_in !! 51 = Some "&utils"
  /\ simple_mode_locking_in !! 65 = Some "&end".
Proof.
  split; [|repeat split; reflexivity].
  destruct (check_namelist_sound simple_mode_locking_in None []
              ["inputscha"; "utils"]) as (gs & E & H).
  - vm_compute. reflexivity.
  - simpl in E. by subst gs.
Qed.

(** ** The path check *)

(** C8. [is_valid_file] returns the path it is given whenever the path
    exists, and changes nothing; the [filename] attribute of every
    namespace the parser returns is the very string that follows [-i] on
    the command line (the last [-i] when it is repeated), and the check
    has been made on that string. *)
Theorem C8_is_valid_file_returns_its_argument :
  (forall (pr : ArgumentParser) (fs : FS) (p : string),
      path_exists fs p = true ->
      is_valid_file pr p fs = (Val p, fs, [(CExists p, Returned)]))
  /\ (forall (argv : list Token) (fs : FS) (ns : gmap string Value),
        result (parse_args parser argv fs) = Val ns ->
        exists p, ns !! "filename" = Some (VStr p)
                  /\ adjacent (Opt "-i") (Arg p) argv
                  /\ path_exists fs p = true
                  /\ In (CExists p, Returned) (trace (parse_args parser argv fs))).
Proof.
  split.
  - intros pr fs p Hp. by rewrite is_valid_file_eq, Hp.
  - intros argv fs ns.
    destruct (parse_args_shape argv fs) as (r & qs & tail & E & Hq & He & Hv).
    rewrite E. unfold result, trace; simpl. intros ->.
    destruct (Hv _ eq_refl) as (-> & its & Hm & Hf & Hx & Hne & ->).
    destruct (last_file its) as [p|] eqn:Hl.
    2:{ by apply last_file_None in Hl. }
    destruct (namespace_lookup its p Hl) as (H1 & _).
    pose proof (last_file_In _ _ Hl) as Hin. rewrite Hf in Hin.
    exists p. split; [done|]. split; [by eapply matches_last_file|].
    split; [by eapply forall_exists_In|].
    rewrite app_nil_r. unfold checks. apply in_map_iff. eauto.
Qed.

Lemma C8_witness :
  is_valid_file parser0 "input.in" toy_fs
  = (Val "input.in", toy_fs, [(CExists "input.in", Returned)])
  /\ exists ns p,
       result (parse_args parser [Opt "-i"; Arg "data"; Opt "-i"; Arg "input.in"] toy_fs) = Val ns
       /\ ns !! "filename" = Some (VStr p)
       /\ adjacent (Opt "-i") (Arg p) [Opt "-i"; Arg "data"; Opt "-i"; Arg "input.in"].
Proof.
  destruct C8_is_valid_file_returns_its_argument as [H1 H2].
  split; [apply H1; reflexivity|].
  destruct (H2 [Opt "-i"; Arg "data"; Opt "-i"; Arg "input.in"] toy_fs _ eq_refl)
    as (p & Hp & Hadj & _).
  eexists _, p. split; [reflexivity|]. split; [exact Hp|exact Hadj].
Defined.

(** C9. The check of [is_valid_file] is one of existence only: a
    directory passes it. On every well-formed command line whose [-i]
    names a directory, [is_valid_file] returns the path, the parser
    returns a namespace and reports no error, the minimizer is
    constructed, and the script ends with the [IOError] that [open]
    raises on the directory, which nothing catches; no method of the
    minimizer is called. *)
Theorem C9_directory_passes_the_check
    (lib : Library) (argv : list Token) (its : list Item) (fs : FS) (d : string) :
  matches argv its -> extra_tokens its = [] -> last_file its = Some d ->
  Forall (fun q => path_exists fs q = true) (files its) ->
  fs !! d = Some Dir ->
  is_valid_file parser0 d fs = (Val d, fs, [(CExists d, Returned)])
  /\ (exists ns, parse_args parser argv fs = (Val ns, fs, checks (files its))
                 /\ ns !! "filename" = Some (VStr d))
  /\ (forall m o, ~ In (CError m, o) (trace (sscha lib argv fs)))
  /\ sscha lib argv fs
     = (Raise (IOError 21 "Is a directory" d), fs,
        checks (files its)
        ++ [(CNew, Returned);
            (COpen (VStr d) "r", Raised (IOError 21 "Is a directory" d))]).
Proof.
  intros Hm Hx Hl Hall Hd.
  assert (Hne : files its <> []).
  { intros Hn. apply last_file_None in Hn. congruence. }
  pose proof (parse_args_complete _ _ _ Hm Hx Hne Hall) as Hp.
  destruct (namespace_lookup its d Hl) as (H1 & H2 & H3).
  assert (Hrun : sscha lib argv fs
     = (Raise (IOError 21 "Is a directory" d), fs,
        checks (files its)
        ++ [(CNew, Returned);
            (COpen (VStr d) "r", Raised (IOError 21 "Is a directory" d))])).
  { unfold sscha. rewrite bind_eq, Hp.
    unfold minimize, new_minimizer, getattr, open, bind, call, traced, ret.
    rewrite H1. unfold open_result. rewrite Hd. reflexivity. }
  split; [|split; [|split]].
  - rewrite is_valid_file_eq. unfold path_exists. by rewrite Hd.
  - eauto.
  - intros m o. rewrite Hrun. unfold trace; simpl. rewrite in_app_iff.
    intros [Hin|[[=]|[[=]|[]]]]. by apply In_checks in Hin as (? & ? & _).
  - exact Hrun.
Qed.

Lemma C9_witness :
  sscha toy_library [Opt "--plot-results"; Opt "-i"; Arg "data"] toy_fs
  = (Raise (IOError 21 "Is a directory" "data"), toy_fs,
     [(CExists "data", Returned); (CNew, Returned);
      (COpen (VStr "data") "r", Raised (IOError 21 "Is a directory" "data"))]).
Proof.
  refine (proj2 (proj2 (proj2
    (C9_directory_passes_the_check toy_library [Opt "--plot-results"; Opt "-i"; Arg "data"]
       [IPlot; IFile "data"] toy_fs "data" _ eq_refl eq_refl _ eq_refl)))).
  - apply m_plot. apply m_file. apply m_nil.
  - simpl. constructor; [reflexivity|constructor].
Defined.

(** ** The input file is only read *)








(** ** The notebook *)

Lemma string_app_cons (x : ascii) (a b : string) :
  String x a +:+ b = String x (a +:+ b).
Proof. reflexivity. Qed.

Lemma string_app_nil_l (a : string) : "" +:+ a = a.
Proof. reflexivity. Qed.

Lemma string_app_assoc (a b c : string) : (a +:+ b) +:+ c = a +:+ (b +:+ c).
Proof.
  induction a as [|x a IH]; [done|].
  rewrite !string_app_cons. by rewrite IH.
Qed.

Lemma string_app_nil_r (a : string) : a +:+ "" = a.
Proof.
  induction a as [|x a IH]; [done|]. rewrite string_app_cons. by rewrite IH.
Qed.

Lemma string_length_app (a b : string) :
  String.length (a +:+ b) = (String.length a + String.length b)%nat.
Proof.
  induction a as [|x a IH]; [done|]. rewrite string_app_cons. simpl.
  by rewrite IH.
Qed.

Lemma string_app_inv_tail (a b c : string) : a +:+ c = b +:+ c -> a = b.
Proof.
  revert b. induction a as [|x a IH]; intros [|y b] H.
  - done.
  - apply (f_equal String.length) in H.
    rewrite !string_length_app in H. simpl in H. lia.
  - apply (f_equal String.length) in H.
    rewrite !string_length_app in H. simpl in H. lia.
  - rewrite !string_app_cons in H. injection H as -> H. by rewrite (IH b H).
Qed.

Lemma text_app (l1 l2 : list string) :
  Notebook.text (l1 ++ l2) = Notebook.text l1 +:+ Notebook.text l2.
Proof.
  induction l1 as [|x l1 IH]; simpl; [done|].
  rewrite IH. symmetry. apply string_app_assoc.
Qed.

Lemma split_lines_line cur s rest :
  Notebook.no_newline s = true ->
  Notebook.split_lines cur (s +:+ Notebook.newline +:+ rest)
  = (cur +:+ s +:+ Notebook.newline) :: Notebook.splitlines rest.
Proof.
  revert cur. induction s as [|c s IH]; intros cur H.
  - done.
  - simpl in H. apply andb_prop in H as [Hc Hs].
    rewrite string_app_cons. simpl.
    destruct (Ascii.eqb c "010"); [done|].
    rewrite (IH _ Hs). by rewrite string_app_assoc.
Qed.

Lemma text_split_lines cur t :
  Notebook.text (Notebook.split_lines cur t) = cur +:+ t.
Proof.
  revert cur. induction t as [|c t IH]; intros cur; simpl.
  - destruct cur; simpl; [done|]. by rewrite !string_app_nil_r.
  - destruct (Ascii.eqb c "010") eqn:E.
    + apply Ascii.eqb_eq in E as ->. simpl. rewrite IH.
      by rewrite string_app_assoc.
    + rewrite IH. by rewrite string_app_assoc.
Qed.

Lemma text_splitlines t : Notebook.text (Notebook.splitlines t) = t.
Proof. apply text_split_lines. Qed.

Lemma no_newline_app a b :
  Notebook.no_newline (a +:+ b)
  = Notebook.no_newline a && Notebook.no_newline b.
Proof.
  induction a as [|c a IH]; [done|].
  rewrite string_app_cons. simpl. rewrite IH. by rewrite andb_assoc.
Qed.

Lemma to_int_isi (n : Z) :
  NilZero.int_of_string (NilZero.string_of_int (Z.to_int n))
  = Some (Z.to_int n).
Proof.
  apply NilZero.isi; destruct n as [|q|q]; simpl; try discriminate;
    intros [= H]; by apply DecimalPos.Unsigned.to_uint_nonnil in H.
Qed.

Lemma format_d_inj (a b : Z) : format_d a = format_d b -> a = b.
Proof.
  unfold format_d. intros H.
  apply (f_equal NilZero.int_of_string) in H.
  rewrite !to_int_isi in H. injection H as H.
  apply (f_equal Z.of_int) in H. by rewrite !DecimalZ.of_to in H.
Qed.

Lemma no_newline_uint (d : Decimal.uint) :
  Notebook.no_newline (NilEmpty.string_of_uint d) = true.
Proof. induction d; simpl; done. Qed.

Lemma no_newline_format_d (n : Z) : Notebook.no_newline (format_d n) = true.
Proof.
  unfold format_d.
  destruct (Z.to_int n) as [d|d]; simpl; destruct d; simpl;
    try reflexivity; apply no_newline_uint.
Qed.

Lemma entries_snoc (l : list string) (x : string) :
  Notebook.entries (l ++ [x])
  = Notebook.entries l ++ [Notebook.format_entry (length l) x].
Proof.
  unfold Notebook.entries. rewrite imap_app. simpl.
  by rewrite Nat.add_0_r.
Qed.

Lemma splitlines_text (ls : list string) :
  Forall (fun x => exists s, Notebook.no_newline s = true
                             /\ x = s +:+ Notebook.newline) ls ->
  Notebook.splitlines (Notebook.text ls) = ls.
Proof.
  induction 1 as [|x ls (s & Hs & ->) _ IH]; [done|].
  simpl. rewrite string_app_assoc.
  unfold Notebook.splitlines at 1. rewrite (split_lines_line _ _ _ Hs).
  by rewrite IH.
Qed.

Lemma format_entry_line (i : nat) (x : string) :
  Notebook.no_newline x = true ->
  exists s, Notebook.no_newline s = true
            /\ Notebook.format_entry i x = s +:+ Notebook.newline.
Proof.
  intros Hx. exists (format_d (Z.of_nat i + 1) +:+ ") " +:+ x). split.
  - rewrite !no_newline_app, no_newline_format_d, Hx. done.
  - unfold Notebook.format_entry. by rewrite !string_app_assoc.
Qed.

Lemma splitlines_entries (l : list string) :
  Forall (fun x => Notebook.no_newline x = true) l ->
  Notebook.splitlines (Notebook.text (Notebook.entries l)) = Notebook.entries l.
Proof.
  intros Hl. apply splitlines_text.
  apply Forall_forall. intros y Hy.
  apply elem_of_lookup_imap in Hy as (i & x & -> & Hi).
  apply format_entry_line.
  eapply Forall_lookup_1 in Hl; eauto.
Qed.

(** One call of the callback, path by path. *)
Lemma print_spacegroup_eq {Minim : Type} (spacegroup : Minim -> Result string) (m : Minim)
    (w : Notebook.World) :
  Notebook.print_spacegroup Minim spacegroup m w =
  match spacegroup m with
  | Raises e => (Raise e, w, [(Notebook.GetSpacegroup "0.05", Raised e)])
  | Returns sg =>
      let l := Notebook.space_groups w ++ [sg] in
      let stored acc :=
        (Val tt,
         {| Notebook.space_groups := l;
            Notebook.disk :=
              <["space_group.dat" :=
                  File acc (Notebook.splitlines
                              (Notebook.text (Notebook.entries l)))]>
                (Notebook.disk w) |},
         [(Notebook.GetSpacegroup "0.05", Returned);
          (Notebook.Open "space_group.dat" "w", Returned);
          (Notebook.Writelines "space_group.dat" (Notebook.entries l), Returned);
          (Notebook.Close "space_group.dat", Returned)]) in
      let refused e :=
        (Raise e,
         {| Notebook.space_groups := l; Notebook.disk := Notebook.disk w |},
         [(Notebook.GetSpacegroup "0.05", Returned);
          (Notebook.Open "space_group.dat" "w", Raised e)]) in
      match Notebook.disk w !! "space_group.dat" with
      | Some Dir => refused (IOError 21 "Is a directory" "space_group.dat")
      | Some (File OpenDenied _) =>
          refused (IOError 13 "Permission denied" "space_group.dat")
      | Some (File acc _) => stored acc
      | None => stored ReadOk
      end
  end.
Proof.
  destruct w as [l0 fs].
  unfold Notebook.print_spacegroup, Notebook.get_spacegroup, Notebook.append,
    Notebook.open, Notebook.get_space_groups, Notebook.writelines,
    Notebook.close, Notebook.then_, Notebook.os_call. simpl.
  destruct (spacegroup m) as [sg|e]; [|done]. simpl.
  unfold Notebook.open_w_result.
  destruct (fs !! "space_group.dat") as [[|[] c]|] eqn:E; simpl; try done;
    unfold Notebook.writelines_result; rewrite lookup_insert_eq; simpl;
    rewrite insert_insert_eq; done.
Qed.

Lemma print_spacegroup_stores {Minim : Type} (spacegroup : Minim -> Result string) (m : Minim)
    (w : Notebook.World) (sg : string) :
  spacegroup m = Returns sg ->
  Notebook.writable (Notebook.disk w) "space_group.dat" = true ->
  Notebook.print_spacegroup Minim spacegroup m w
  = (Val tt,
     {| Notebook.space_groups := Notebook.space_groups w ++ [sg];
        Notebook.disk :=
          <["space_group.dat" :=
              File (Notebook.access_after_open (Notebook.disk w) "space_group.dat")
                (Notebook.splitlines
                   (Notebook.text
                      (Notebook.entries (Notebook.space_groups w ++ [sg]))))]>
            (Notebook.disk w) |},
     [(Notebook.GetSpacegroup "0.05", Returned);
      (Notebook.Open "space_group.dat" "w", Returned);
      (Notebook.Writelines "space_group.dat"
         (Notebook.entries (Notebook.space_groups w ++ [sg])), Returned);
      (Notebook.Close "space_group.dat", Returned)]).
Proof.
  intros Hsg Hw. rewrite print_spacegroup_eq, Hsg.
  unfold Notebook.writable in Hw. unfold Notebook.access_after_open.
  by destruct (Notebook.disk w !! "space_group.dat") as [[|[] c]|].
Qed.

Lemma access_after_open_writable (fs : FS) (f : string) :
  Notebook.writable fs f = true ->
  Notebook.access_after_open fs f <> OpenDenied.
Proof.
  unfold Notebook.writable, Notebook.access_after_open.
  by destruct (fs !! f) as [[|[] c]|].
Qed.

Lemma writable_insert (fs : FS) (f : string) (acc : Access) (c : list string) :
  acc <> OpenDenied ->
  Notebook.writable (<[f := File acc c]> fs) f = true.
Proof.
  intros H. unfold Notebook.writable. rewrite lookup_insert_eq.
  by destruct acc.
Qed.

Lemma access_after_open_insert (fs : FS) (f : string) (acc : Access)
    (c : list string) :
  Notebook.access_after_open (<[f := File acc c]> fs) f = acc.
Proof. unfold Notebook.access_after_open. by rewrite lookup_insert_eq. Qed.

(** The callbacks of a sequence of steps, when [spglib] and the file are
    willing at each. *)
Lemma after_each_step_stores {Minim : Type} (spacegroup : Minim -> Result string) (ms : list Minim) :
  forall (w : Notebook.World) (sgs : list string),
  Notebook.symbols spacegroup ms = Some sgs ->
  Notebook.writable (Notebook.disk w) "space_group.dat" = true ->
  let x := Notebook.after_each_step Minim spacegroup ms w in
  Notebook.outcome x = Val tt
  /\ Notebook.space_groups (Notebook.world x) = Notebook.space_groups w ++ sgs
  /\ (ms = [] -> Notebook.world x = w)
  /\ (ms <> [] ->
      Notebook.disk (Notebook.world x)
      = <["space_group.dat" :=
            File (Notebook.access_after_open (Notebook.disk w) "space_group.dat")
              (Notebook.splitlines
                 (Notebook.text
                    (Notebook.entries (Notebook.space_groups w ++ sgs))))]>
          (Notebook.disk w)).
Proof.
  induction ms as [|m rest IH]; intros w sgs Hs Hw; simpl in Hs.
  - injection Hs as <-. simpl. rewrite app_nil_r. done.
  - destruct (spacegroup m) as [sg|] eqn:Hsg; [|done].
    destruct (Notebook.symbols spacegroup rest) as [ss|] eqn:Hss;
      [|done].
    injection Hs as <-.
    cbn [Notebook.after_each_step]. unfold Notebook.then_.
    rewrite (print_spacegroup_stores _ _ _ _ Hsg Hw).
    pose proof (access_after_open_writable _ _ Hw) as Hacc.
    set (w1 := {| Notebook.space_groups := _; Notebook.disk := _ |}).
    destruct (IH w1 ss eq_refl) as (H1 & H2 & H3 & H4).
    { by apply writable_insert. }
    destruct (Notebook.after_each_step Minim spacegroup rest w1)
      as [[r w2] t2] eqn:E.
    unfold Notebook.outcome, Notebook.world in *. simpl in *. subst r.
    split; [done|]. split; [by rewrite H2, <- app_assoc|].
    split; [done|]. intros _.
    destruct rest as [|m' rest'].
    + rewrite (H3 eq_refl). simpl in Hss. injection Hss as <-. done.
    + rewrite H4 by done. rewrite insert_insert_eq, access_after_open_insert.
      by rewrite <- app_assoc.
Qed.

Lemma after_each_step_app {Minim : Type} (spacegroup : Minim -> Result string) (ms1 ms2 : list Minim) :
  forall w : Notebook.World,
  Notebook.after_each_step Minim spacegroup (ms1 ++ ms2) w
  = match Notebook.after_each_step Minim spacegroup ms1 w with
    | (Val _, w1, t1) =>
        match Notebook.after_each_step Minim spacegroup ms2 w1 with
        | (r, w2, t2) => (r, w2, t1 ++ t2)
        end
    | (Raise e, w1, t1) => (Raise e, w1, t1)
    | (Exit n, w1, t1) => (Exit n, w1, t1)
    end.
Proof.
  induction ms1 as [|m ms1 IH]; intros w.
  - simpl. unfold Notebook.unit_.
    by destruct (Notebook.after_each_step _ _ ms2 w) as [[r w2] t2].
  - simpl. unfold Notebook.then_.
    destruct (Notebook.print_spacegroup _ _ m w) as [[[u|e|n] w1] t1];
      try done.
    rewrite IH.
    destruct (Notebook.after_each_step _ _ ms1 w1) as [[[u'|e|n] w2] t2];
      try done.
    destruct (Notebook.after_each_step _ _ ms2 w2) as [[r w3] t3].
    by rewrite app_assoc.
Qed.

(** What one call of the callback can do, however it ends. *)
Lemma print_spacegroup_frame {Minim : Type} (spacegroup : Minim -> Result string) (m : Minim)
    (w : Notebook.World) :
  let x := Notebook.print_spacegroup Minim spacegroup m w in
  (exists k, Notebook.space_groups (Notebook.world x)
             = Notebook.space_groups w ++ k /\ length k <= 1)
  /\ (forall p, p <> "space_group.dat" ->
        Notebook.disk (Notebook.world x) !! p = Notebook.disk w !! p)
  /\ (forall c o, In (c, o) (Notebook.events x) ->
        match c with
        | Notebook.GetSpacegroup s => s = "0.05"
        | Notebook.Open n md => n = "space_group.dat" /\ md = "w"
        | Notebook.Writelines n _ => n = "space_group.dat"
        | Notebook.Close n => n = "space_group.dat"
        | _ => False
        end).
Proof.
  intros x. subst x. rewrite print_spacegroup_eq.
  destruct (spacegroup m) as [sg|e].
  2:{ unfold Notebook.world, Notebook.events. simpl. split; [|split].
      - exists []. split; [by rewrite app_nil_r|simpl; lia].
      - done.
      - intros c o [[= <- <-]|[]]. done. }
  cbv zeta.
  destruct (Notebook.disk w !! "space_group.dat") as [[|[] c0]|];
    unfold Notebook.world, Notebook.events; simpl;
    (split; [exists [sg]; split; [done|simpl; lia]|]);
    (split; [intros p Hp; by rewrite ?lookup_insert_ne|]);
    intros c o Hin; in_cases; done.
Qed.

(** X1. Called after each of one or more steps, with [spglib] returning a
    symbol at each and [space_group.dat] open to writing, the callback
    returns every time, leaves in [space_groups] the symbols in the order
    of the steps after what the list held, and leaves in the file the
    text of one entry per element of the whole list, whatever the file
    held before; nothing else on the disk has changed. *)
Theorem callback_records_every_step {Minim : Type}
    (spacegroup : Minim -> Result string) (ms : list Minim)
    (w : Notebook.World) (sgs : list string) :
  ms <> [] ->
  Notebook.symbols spacegroup ms = Some sgs ->
  Notebook.writable (Notebook.disk w) "space_group.dat" = true ->
  let x := Notebook.after_each_step Minim spacegroup ms w in
  Notebook.outcome x = Val tt
  /\ Notebook.space_groups (Notebook.world x) = Notebook.space_groups w ++ sgs
  /\ Notebook.disk (Notebook.world x)
     = <["space_group.dat" :=
           File (Notebook.access_after_open (Notebook.disk w) "space_group.dat")
             (Notebook.splitlines
                (Notebook.text
                   (Notebook.entries (Notebook.space_groups w ++ sgs))))]>
         (Notebook.disk w).
Proof.
  intros Hne Hs Hw.
  destruct (after_each_step_stores spacegroup ms w sgs Hs Hw)
    as (H1 & H2 & _ & H4).
  cbv zeta. auto.
Qed.

Lemma callback_records_every_step_witness :
  Notebook.space_groups
    (Notebook.world
       (Notebook.after_each_step string Notebook.toy_spacegroup
          ["Fm-3m (225)"; "R-3m (166)"] Notebook.toy_world))
  = [] ++ ["Fm-3m (225)"; "R-3m (166)"].
Proof.
  refine (proj1 (proj2 (callback_records_every_step Notebook.toy_spacegroup ["Fm-3m (225)"; "R-3m (166)"] Notebook.toy_world
    ["Fm-3m (225)"; "R-3m (166)"] _ _ _))).
  - discriminate.
  - reflexivity.
  - reflexivity.
Defined.

(** X2. Read back line by line, the text the callback writes for a list
    of symbols has one line per symbol, in the order of the list, the
    line of the symbol at index [i] being the number [i+1], a closing
    parenthesis, a space, the symbol and a newline; this holds when no
    symbol contains a newline. *)
Theorem space_group_file_reads_back (l : list string) (i : nat) :
  Forall (fun x => Notebook.no_newline x = true) l ->
  Notebook.splitlines (Notebook.text (Notebook.entries l)) !! i
  = (fun x => format_d (Z.of_nat i + 1) +:+ ") " +:+ x +:+ Notebook.newline)
    <$> l !! i.
Proof.
  intros Hl. rewrite (splitlines_entries l Hl).
  unfold Notebook.entries. by rewrite list_lookup_imap.
Qed.

Lemma space_group_file_reads_back_witness :
  Notebook.splitlines
    (Notebook.text (Notebook.entries ["Fm-3m (225)"; "R-3m (166)"])) !! 1%nat
  = Some ("2) R-3m (166)" +:+ Notebook.newline).
Proof.
  refine (space_group_file_reads_back ["Fm-3m (225)"; "R-3m (166)"] 1 _).
  repeat constructor.
Defined.

(** X3. Although the callback rewrites [space_group.dat] from its start,
    the file only grows: when the file holds the entries of the list, a
    call that returns leaves the text it held followed by one entry, for
    the new symbol, numbered by the length the list has reached; the
    access of the file is kept. *)
Theorem space_group_file_only_grows {Minim : Type}
    (spacegroup : Minim -> Result string) (m : Minim)
    (w : Notebook.World) (sg : string) (acc : Access) (content : list string) :
  spacegroup m = Returns sg ->
  Notebook.disk w !! "space_group.dat" = Some (File acc content) ->
  acc <> OpenDenied ->
  Notebook.text content = Notebook.text (Notebook.entries (Notebook.space_groups w)) ->
  exists content',
    Notebook.disk
      (Notebook.world
         (Notebook.print_spacegroup Minim spacegroup m w))
    !! "space_group.dat" = Some (File acc content')
    /\ Notebook.text content'
       = Notebook.text content
         +:+ format_d (Z.of_nat (length (Notebook.space_groups w)) + 1)
         +:+ ") " +:+ sg +:+ Notebook.newline.
Proof.
  intros Hsg Hf Hacc Hsync.
  rewrite (print_spacegroup_stores _ _ _ _ Hsg).
  2:{ unfold Notebook.writable. rewrite Hf. by destruct acc. }
  unfold Notebook.world, Notebook.access_after_open. simpl.
  rewrite lookup_insert_eq, Hf. eexists. split; [reflexivity|].
  rewrite text_splitlines, entries_snoc, text_app, Hsync. simpl.
  by rewrite string_app_nil_r.
Qed.

Lemma space_group_file_only_grows_witness :
  exists content',
    Notebook.disk
      (Notebook.world
         (Notebook.print_spacegroup string
            Notebook.toy_spacegroup "R-3m (166)"
            {| Notebook.space_groups := ["Fm-3m (225)"];
               Notebook.disk :=
                 <["space_group.dat" :=
                     File ReadOk ["1) Fm-3m (225)" +:+ Notebook.newline]]>
                   toy_fs |}))
    !! "space_group.dat" = Some (File ReadOk content')
    /\ Notebook.text content'
       = Notebook.text ["1) Fm-3m (225)" +:+ Notebook.newline]
         +:+ format_d (Z.of_nat 1 + 1)
         +:+ ") " +:+ "R-3m (166)" +:+ Notebook.newline.
Proof.
  refine (space_group_file_only_grows Notebook.toy_spacegroup
    "R-3m (166)"
    {| Notebook.space_groups := ["Fm-3m (225)"];
       Notebook.disk :=
         <["space_group.dat" :=
             File ReadOk ["1) Fm-3m (225)" +:+ Notebook.newline]]> toy_fs |}
    "R-3m (166)" ReadOk ["1) Fm-3m (225)" +:+ Notebook.newline] _ _ _ _).
  - reflexivity.
  - reflexivity.
  - discriminate.
  - reflexivity.
Defined.

Lemma format_entry_inj (i : nat) (x y : string) :
  Notebook.format_entry i x = Notebook.format_entry i y -> x = y.
Proof.
  unfold Notebook.format_entry. intros H.
  apply String.app_inj in H. apply String.app_inj in H.
  by apply string_app_inv_tail in H.
Qed.

Lemma entries_inj (l1 l2 : list string) :
  Notebook.entries l1 = Notebook.entries l2 -> l1 = l2.
Proof.
  intros H. apply list_eq. intros i.
  apply (f_equal (fun l => l !! i)) in H.
  unfold Notebook.entries in H. rewrite !list_lookup_imap in H.
  destruct (l1 !! i) as [x|], (l2 !! i) as [y|]; simpl in H; try done.
  injection H as H. by rewrite (format_entry_inj _ _ _ H).
Qed.

(** X4. The file determines the list: two lists of symbols without
    newlines for which the callback writes the same text are the same
    list. *)
Theorem space_group_file_determines_the_list (l1 l2 : list string) :
  Forall (fun x => Notebook.no_newline x = true) l1 ->
  Forall (fun x => Notebook.no_newline x = true) l2 ->
  Notebook.text (Notebook.entries l1) = Notebook.text (Notebook.entries l2) ->
  l1 = l2.
Proof.
  intros H1 H2 H. apply entries_inj.
  rewrite <- (splitlines_entries l1 H1), <- (splitlines_entries l2 H2).
  by rewrite H.
Qed.

Lemma space_group_file_determines_the_list_witness :
  ["Fm-3m (225)"; "R-3m (166)"] = ["Fm-3m (225)"; "R-3m" +:+ " (166)"].
Proof.
  refine (space_group_file_determines_the_list
    ["Fm-3m (225)"; "R-3m (166)"] ["Fm-3m (225)"; "R-3m" +:+ " (166)"] _ _ _).
  - repeat constructor.
  - repeat constructor.
  - reflexivity.
Defined.

(** The hypothesis on newlines is needed: a symbol that holds a newline
    and the text of an entry is written as two entries are. *)
Example newline_in_a_symbol :
  Notebook.text (Notebook.entries ["Fm-3m" +:+ Notebook.newline +:+ "2) R-3m"])
  = Notebook.text (Notebook.entries ["Fm-3m"; "R-3m"]).
Proof. reflexivity. Qed.

(** X5. A failure of [spglib] at one step leaves the list and the disk as
    the callbacks of the steps before left them: the exception is the
    outcome, the failing call appends nothing and opens no file, and the
    callback is not run for the steps that follow. *)
Theorem failed_lookup_changes_nothing {Minim : Type}
    (spacegroup : Minim -> Result string) (ms1 ms2 : list Minim)
    (m : Minim) (w : Notebook.World) (e : Exn) :
  Notebook.outcome
    (Notebook.after_each_step Minim spacegroup ms1 w) = Val tt ->
  spacegroup m = Raises e ->
  Notebook.after_each_step Minim spacegroup (ms1 ++ m :: ms2) w
  = (Raise e,
     Notebook.world
       (Notebook.after_each_step Minim spacegroup ms1 w),
     Notebook.events
       (Notebook.after_each_step Minim spacegroup ms1 w)
     ++ [(Notebook.GetSpacegroup "0.05", Raised e)]).
Proof.
  intros H1 He. rewrite after_each_step_app.
  destruct (Notebook.after_each_step _ _ ms1 w) as [[r w1] t1].
  unfold Notebook.outcome, Notebook.world, Notebook.events in *. simpl in *.
  subst r. cbn [Notebook.after_each_step]. unfold Notebook.then_.
  by rewrite print_spacegroup_eq, He.
Qed.

Lemma failed_lookup_changes_nothing_witness :
  Notebook.after_each_step string Notebook.toy_spacegroup
    (["Fm-3m (225)"] ++ "" :: ["R-3m (166)"]) Notebook.toy_world
  = (Raise (LibraryError "SpglibError" "no cell"),
     Notebook.world
       (Notebook.after_each_step string Notebook.toy_spacegroup
          ["Fm-3m (225)"] Notebook.toy_world),
     Notebook.events
       (Notebook.after_each_step string Notebook.toy_spacegroup
          ["Fm-3m (225)"] Notebook.toy_world)
     ++ [(Notebook.GetSpacegroup "0.05",
          Raised (LibraryError "SpglibError" "no cell"))]).
Proof.
  refine (failed_lookup_changes_nothing Notebook.toy_spacegroup
    ["Fm-3m (225)"] ["R-3m (166)"] "" Notebook.toy_world _ _ _).
  - reflexivity.
  - reflexivity.
Defined.

(** X6. The symbol is appended before the file is opened: when
    [space_group.dat] cannot be opened for writing (a directory, or a
    file whose opening is denied), the call ends with the [IOError] of
    [open], the list has grown by the symbol and the disk is as it was,
    so that the list is one entry ahead of the file. *)
Theorem refused_file_leaves_the_list_ahead {Minim : Type}
    (spacegroup : Minim -> Result string) (m : Minim)
    (w : Notebook.World) (sg : string) :
  spacegroup m = Returns sg ->
  Notebook.writable (Notebook.disk w) "space_group.dat" = false ->
  exists errno strerror,
    Notebook.print_spacegroup Minim spacegroup m w
    = (Raise (IOError errno strerror "space_group.dat"),
       {| Notebook.space_groups := Notebook.space_groups w ++ [sg];
          Notebook.disk := Notebook.disk w |},
       [(Notebook.GetSpacegroup "0.05", Returned);
        (Notebook.Open "space_group.dat" "w",
         Raised (IOError errno strerror "space_group.dat"))]).
Proof.
  intros Hsg Hw. rewrite print_spacegroup_eq, Hsg.
  unfold Notebook.writable in Hw.
  destruct (Notebook.disk w !! "space_group.dat") as [[|[] c]|]; try done;
    by eexists _, _.
Qed.

Lemma refused_file_leaves_the_list_ahead_witness :
  exists errno strerror,
    Notebook.print_spacegroup string Notebook.toy_spacegroup
      "Fm-3m (225)"
      {| Notebook.space_groups := [];
         Notebook.disk := <["space_group.dat" := Dir]> toy_fs |}
    = (Raise (IOError errno strerror "space_group.dat"),
       {| Notebook.space_groups := [] ++ ["Fm-3m (225)"];
          Notebook.disk := <["space_group.dat" := Dir]> toy_fs |},
       [(Notebook.GetSpacegroup "0.05", Returned);
        (Notebook.Open "space_group.dat" "w",
         Raised (IOError errno strerror "space_group.dat"))]).
Proof.
  refine (refused_file_leaves_the_list_ahead Notebook.toy_spacegroup
    "Fm-3m (225)"
    {| Notebook.space_groups := [];
       Notebook.disk := <["space_group.dat" := Dir]> toy_fs |}
    "Fm-3m (225)" _ _).
  - reflexivity.
  - reflexivity.
Defined.

(** X7. However the callbacks of a sequence of steps end, they only add
    to the end of [space_groups], at most one symbol per step; they leave
    every path of the disk but [space_group.dat] as it was; and they call
    nothing but [spglib.get_spacegroup] with the tolerance [0.05] and
    [open], [writelines] and [close] on [space_group.dat], opened in mode
    ["w"]. *)
Theorem callback_touches_one_file {Minim : Type}
    (spacegroup : Minim -> Result string) (ms : list Minim)
    (w : Notebook.World) :
  let x := Notebook.after_each_step Minim spacegroup ms w in
  (exists k, Notebook.space_groups (Notebook.world x)
             = Notebook.space_groups w ++ k /\ length k <= length ms)
  /\ (forall p, p <> "space_group.dat" ->
        Notebook.disk (Notebook.world x) !! p = Notebook.disk w !! p)
  /\ (forall c o, In (c, o) (Notebook.events x) ->
        match c with
        | Notebook.GetSpacegroup s => s = "0.05"
        | Notebook.Open n md => n = "space_group.dat" /\ md = "w"
        | Notebook.Writelines n _ => n = "space_group.dat"
        | Notebook.Close n => n = "space_group.dat"
        | _ => False
        end).
Proof.
  revert w. induction ms as [|m rest IH]; intros w; cbv zeta.
  - unfold Notebook.world, Notebook.events. simpl. split; [|split].
    + exists []. split; [by rewrite app_nil_r|simpl; lia].
    + done.
    + intros c o [].
  - cbn [Notebook.after_each_step]. unfold Notebook.then_.
    pose proof (print_spacegroup_frame spacegroup m w) as Hm.
    cbv zeta in Hm.
    destruct (Notebook.print_spacegroup _ _ m w) as [[r w1] t1].
    unfold Notebook.world, Notebook.events in Hm. simpl in Hm.
    destruct Hm as ((k1 & Hk1 & Hl1) & Hd1 & He1).
    assert (Hstop : forall r' : Res unit,
      (exists k, Notebook.space_groups (Notebook.world (r', w1, t1))
                 = Notebook.space_groups w ++ k /\ length k <= length (m :: rest))
      /\ (forall p, p <> "space_group.dat" ->
            Notebook.disk (Notebook.world (r', w1, t1)) !! p
            = Notebook.disk w !! p)
      /\ (forall c o, In (c, o) (Notebook.events (r', w1, t1)) ->
            match c with
            | Notebook.GetSpacegroup s => s = "0.05"
            | Notebook.Open n md => n = "space_group.dat" /\ md = "w"
            | Notebook.Writelines n _ => n = "space_group.dat"
            | Notebook.Close n => n = "space_group.dat"
            | _ => False
            end)).
    { intros r'. unfold Notebook.world, Notebook.events. simpl.
      split; [|split; [done|done]].
      exists k1. split; [done|lia]. }
    destruct r as [u|e|n]; [|apply Hstop|apply Hstop].
    specialize (IH w1). cbv zeta in IH.
    destruct (Notebook.after_each_step _ _ rest w1) as [[r2 w2] t2].
    unfold Notebook.world, Notebook.events in *. simpl in *.
    destruct IH as ((k2 & Hk2 & Hl2) & Hd2 & He2).
    split; [|split].
    + exists (k1 ++ k2). rewrite Hk2, Hk1, <- app_assoc. split; [done|].
      rewrite length_app. lia.
    + intros p Hp. by rewrite Hd2, Hd1.
    + intros c o. rewrite in_app_iff. intros [Hin|Hin].
      * exact (He1 c o Hin).
      * exact (He2 c o Hin).
Qed.

Lemma make_ensembles_eq (refusal : FS -> string -> option Exn)
    (w : Notebook.World) :
  Notebook.make_ensembles refusal w =
  if path_exists (Notebook.disk w) "ensembles"
  then (Val tt, w, [(Notebook.Exists "ensembles", Returned)])
  else match refusal (Notebook.disk w) "ensembles" with
       | Some e =>
           (Raise e, w,
            [(Notebook.Exists "ensembles", Returned);
             (Notebook.Mkdir "ensembles", Raised e)])
       | None =>
           (Val tt,
            {| Notebook.space_groups := Notebook.space_groups w;
               Notebook.disk := <["ensembles" := Dir]> (Notebook.disk w) |},
            [(Notebook.Exists "ensembles", Returned);
             (Notebook.Mkdir "ensembles", Returned)])
       end.
Proof.
  destruct w as [l fs].
  unfold Notebook.make_ensembles, Notebook.then_, Notebook.os_path_exists,
    Notebook.os_mkdir, Notebook.os_call, Notebook.mkdir_result, path_exists.
  simpl. destruct (fs !! "ensembles") eqn:E; simpl; rewrite ?E; [reflexivity|].
  destruct (refusal fs "ensembles"); reflexivity.
Qed.

(** X8. The guard before the relaxation calls [os.mkdir] exactly when
    [os.path.exists] finds nothing at [ensembles]. When the path exists,
    nothing changes and [os.mkdir] is not called. When it does not,
    [os.mkdir] is called once: if it returns, a directory is at the path;
    if it raises, which it can where [os.path.exists] finds nothing (a
    broken link, a directory that may not be written to), the exception
    is the outcome of the guard, nothing catches it and the world is as
    it was. In every case the list of space groups and every path but
    [ensembles] are as they were, and a guard that returns leaves
    something at [ensembles]. *)
Theorem ensembles_guard (refusal : FS -> string -> option Exn)
    (w : Notebook.World) :
  let x := Notebook.make_ensembles refusal w in
  Notebook.space_groups (Notebook.world x) = Notebook.space_groups w
  /\ (forall p, p <> "ensembles" ->
        Notebook.disk (Notebook.world x) !! p = Notebook.disk w !! p)
  /\ (Notebook.outcome x = Val tt ->
        path_exists (Notebook.disk (Notebook.world x)) "ensembles" = true)
  /\ ((exists o, In (Notebook.Mkdir "ensembles", o) (Notebook.events x))
        <-> path_exists (Notebook.disk w) "ensembles" = false)
  /\ (path_exists (Notebook.disk w) "ensembles" = true ->
        x = (Val tt, w, [(Notebook.Exists "ensembles", Returned)]))
  /\ (path_exists (Notebook.disk w) "ensembles" = false ->
        refusal (Notebook.disk w) "ensembles" = None ->
        Notebook.outcome x = Val tt
        /\ Notebook.disk (Notebook.world x) !! "ensembles" = Some Dir
        /\ Notebook.events x = [(Notebook.Exists "ensembles", Returned);
                                (Notebook.Mkdir "ensembles", Returned)])
  /\ (forall e,
        path_exists (Notebook.disk w) "ensembles" = false ->
        refusal (Notebook.disk w) "ensembles" = Some e ->
        x = (Raise e, w,
             [(Notebook.Exists "ensembles", Returned);
              (Notebook.Mkdir "ensembles", Raised e)])).
Proof.
  cbv zeta. rewrite make_ensembles_eq.
  destruct (path_exists (Notebook.disk w) "ensembles") eqn:E.
  - unfold Notebook.outcome, Notebook.world, Notebook.events. simpl.
    repeat split; try done.
    intros (o & [[=]|[]]).
  - destruct (refusal (Notebook.disk w) "ensembles") as [e|] eqn:R;
      unfold Notebook.outcome, Notebook.world, Notebook.events; simpl.
    + repeat split; try done.
      * exists (Raised e). auto.
      * by intros e' _ [= <-].
    + unfold path_exists. rewrite lookup_insert_eq.
      repeat split; try done.
      * intros p Hp. by rewrite lookup_insert_ne.
      * exists Returned. auto.
Qed.

(** X9. A guard that has returned can be run again: the second run finds
    the path, calls [os.path.exists] only and changes nothing. *)
Theorem ensembles_guard_idempotent (refusal : FS -> string -> option Exn)
    (w : Notebook.World) :
  Notebook.outcome (Notebook.make_ensembles refusal w) = Val tt ->
  Notebook.make_ensembles refusal
    (Notebook.world (Notebook.make_ensembles refusal w))
  = (Val tt, Notebook.world (Notebook.make_ensembles refusal w),
     [(Notebook.Exists "ensembles", Returned)]).
Proof.
  rewrite (make_ensembles_eq refusal (Notebook.world _)).
  rewrite (make_ensembles_eq refusal w).
  destruct (path_exists (Notebook.disk w) "ensembles") eqn:E;
    unfold Notebook.outcome, Notebook.world; simpl.
  - by rewrite E.
  - destruct (refusal (Notebook.disk w) "ensembles"); simpl; [done|].
    unfold path_exists. by rewrite lookup_insert_eq.
Qed.

Lemma ensembles_guard_idempotent_witness :
  Notebook.make_ensembles Notebook.willing
    (Notebook.world (Notebook.make_ensembles Notebook.willing Notebook.toy_world))
  = (Val tt,
     Notebook.world (Notebook.make_ensembles Notebook.willing Notebook.toy_world),
     [(Notebook.Exists "ensembles", Returned)]).
Proof.
  refine (ensembles_guard_idempotent Notebook.willing Notebook.toy_world _).
  reflexivity.
Defined.

(** X10. The relaxation is entered exactly when the guard returns, in the
    world the guard leaves and with [ensemble_loc = "ensembles"], a path
    at which something then is. When [os.mkdir] raises, the cell ends
    with its exception and [vc_relax] is not called. The guard tests
    existence only: when [ensembles] is a regular file, [os.mkdir] is not
    called and the relaxation starts in the world as it was, the path
    still naming that file. *)
Theorem relaxation_follows_the_guard
    (vc_relax : bool -> Z -> string -> Notebook.NB unit)
    (refusal : FS -> string -> option Exn) (w : Notebook.World) :
  (Notebook.outcome (Notebook.make_ensembles refusal w) = Val tt ->
     Notebook.run_relaxation vc_relax refusal w
     = (let '(r, w2, t2) :=
          vc_relax true 120%Z "ensembles"
            (Notebook.world (Notebook.make_ensembles refusal w)) in
        (r, w2, Notebook.events (Notebook.make_ensembles refusal w) ++ t2))
     /\ path_exists
          (Notebook.disk (Notebook.world (Notebook.make_ensembles refusal w)))
          "ensembles" = true)
  /\ (forall e,
        Notebook.outcome (Notebook.make_ensembles refusal w) = Raise e ->
        path_exists (Notebook.disk w) "ensembles" = false
        /\ Notebook.run_relaxation vc_relax refusal w
           = (Raise e, w,
              [(Notebook.Exists "ensembles", Returned);
               (Notebook.Mkdir "ensembles", Raised e)]))
  /\ (forall acc content,
        Notebook.disk w !! "ensembles" = Some (File acc content) ->
        Notebook.run_relaxation vc_relax refusal w
        = (let '(r, w2, t2) := vc_relax true 120%Z "ensembles" w in
           (r, w2, (Notebook.Exists "ensembles", Returned) :: t2))).
Proof.
  unfold Notebook.run_relaxation, Notebook.then_.
  rewrite make_ensembles_eq.
  split; [|split].
  - destruct (path_exists (Notebook.disk w) "ensembles") eqn:E.
    + intros _. unfold Notebook.world, Notebook.events. simpl. done.
    + destruct (refusal (Notebook.disk w) "ensembles") as [e|]; [done|].
      intros _. unfold Notebook.world, Notebook.events, path_exists. simpl.
      by rewrite lookup_insert_eq.
  - intros e.
    destruct (path_exists (Notebook.disk w) "ensembles") eqn:E; [done|].
    destruct (refusal (Notebook.disk w) "ensembles") as [e'|]; [|done].
    by intros [= <-].
  - intros acc content H. unfold path_exists. by rewrite H.
Qed.

(** ** More on the script *)

(** X11. The prefix handed to [save_qe] tells the populations apart: for
    one [dyn_path], two different populations give two different
    prefixes, so that the matrices of one population are not written
    over those of another. *)
Theorem qe_prefix_separates_populations (lib : Library) (m1 m2 : Minim lib) :
  dyn_path lib m1 = dyn_path lib m2 ->
  population lib m1 <> population lib m2 ->
  qe_prefix lib m1 <> qe_prefix lib m2.
Proof.
  intros Hd Hp H. unfold qe_prefix in H. rewrite Hd in H.
  apply String.app_inj in H. apply String.app_inj in H.
  apply string_app_inv_tail in H. by apply format_d_inj in H.
Qed.

Lemma qe_prefix_separates_populations_witness :
  qe_prefix toy_library ("dyn", 1%Z) <> qe_prefix toy_library ("dyn", 2%Z).
Proof.
  refine (qe_prefix_separates_populations toy_library
    ("dyn", 1%Z) ("dyn", 2%Z) _ _).
  - reflexivity.
  - discriminate.
Defined.

(** X12. The input file is not closed when reading it fails: a run in
    which [readlines] raises has opened the file and ends with that
    exception, and [close] is never called; the file system is as it
    was. *)
Theorem input_file_left_open_when_reading_fails
    (lib : Library) (argv : list Token) (fs : FS) (p : string) (e : Exn) :
  In (CReadlines p, Raised e) (trace (sscha lib argv fs)) ->
  result (sscha lib argv fs) = Raise e
  /\ In (COpen (VStr p) "r", Returned) (trace (sscha lib argv fs))
  /\ (forall q o, ~ In (CClose q, o) (trace (sscha lib argv fs)))
  /\ final_fs (sscha lib argv fs) = fs.
Proof.
  intros Hin.
  destruct (sscha_cases lib argv fs) as (qs & Hq & [(tail & He & _ & _ & _ & Ht)
    |(its & p' & t & Hm & Hf & Hx & Hl & Hparse & HR & Ht)]).
  { rewrite Ht, in_app_iff in Hin. destruct Hin as [Hin|Hin].
    - by apply In_checks in Hin as (? & ? & _).
    - by apply (parse_end_calls _ _ _ _ _ He) in Hin. }
  rewrite Ht in *. rewrite in_app_iff in Hin. destruct Hin as [Hin|Hin].
  { by apply In_checks in Hin as (? & ? & _). }
  assert (Hc : forall q o, ~ In (CClose q, o) (checks qs)).
  { intros q o Hc. by apply In_checks in Hc as (? & ? & _). }
  destruct HR; unfold returned, steps, plot_events in Hin; simpl in Hin;
    rewrite ?in_app_iff in Hin; simpl in Hin;
    repeat match goal with
           | H : _ \/ _ |- _ => destruct H
           | H : (_, _) = (_, _) |- _ => injection H as <- <-
           | H : In _ (match ?x with _ => _ end) |- _ => destruct x; simpl in H
           | H : In _ (if ?x then _ else _) |- _ => destruct x; simpl in H
           | H : False |- _ => destruct H
           end; try done.
  split; [done|]. split; [|split; [|done]].
  - rewrite in_app_iff. right. simpl. auto.
  - intros q o. rewrite in_app_iff. intros [Hin|Hin]; [by eapply Hc|].
    simpl in Hin. in_cases; done.
Qed.

Lemma input_file_left_open_when_reading_fails_witness :
  result (sscha toy_library [Opt "-i"; Arg "unreadable.in"]
            (<["unreadable.in" := File ReadFails []]> toy_fs))
  = Raise (IOError 5 "Input/output error" "unreadable.in").
Proof.
  refine (proj1 (input_file_left_open_when_reading_fails
    toy_library [Opt "-i"; Arg "unreadable.in"]
    (<["unreadable.in" := File ReadFails []]> toy_fs) "unreadable.in"
    (IOError 5 "Input/output error" "unreadable.in") _)).
  vm_compute. auto.
Defined.

(** X13. The script ends in [SystemExit] only while the arguments are
    parsed: the status is then 0, after the help has been printed, or 2,
    after [parser.error]; no call but those of the parser has been made,
    so no minimizer exists, and the file system is as it was. *)
Theorem exit_only_while_parsing
    (lib : Library) (argv : list Token) (fs : FS) (n : Z) :
  result (sscha lib argv fs) = Exit n ->
  final_fs (sscha lib argv fs) = fs
  /\ (forall c o, In (c, o) (trace (sscha lib argv fs)) -> parser_call c)
  /\ ((n = 0%Z /\ exists t, trace (sscha lib argv fs) = t ++ [(CHelp, Exited 0)])
      \/ (n = 2%Z /\ exists t message,
            trace (sscha lib argv fs) = t ++ [(CError message, Exited 2)])).
Proof.
  intros Hr.
  destruct (sscha_cases lib argv fs) as (qs & Hq & [(tail & He & _ & _ & Hfs & Ht)
    |(its & p' & t & Hm & Hf & Hx & Hl & Hparse & HR & Ht)]).
  2:{ rewrite Hr in HR. inversion HR. }
  split; [done|]. split.
  - intros c o. rewrite Ht, in_app_iff. intros [Hin|Hin].
    + by apply In_checks in Hin as (? & -> & _).
    + by eapply parse_end_calls.
  - rewrite Ht. rewrite Hr in He. inversion He; subst.
    + right. split; [done|].
      eexists (checks qs ++ [(CExists p, Returned)]), _.
      by rewrite <- app_assoc.
    + right. split; [done|]. by eexists (checks qs), _.
    + left. split; [done|]. by exists (checks qs).
Qed.

Lemma exit_only_while_parsing_witness :
  final_fs (sscha toy_library [Opt "--plot-results"] toy_fs) = toy_fs.
Proof.
  refine (proj1 (exit_only_while_parsing toy_library [Opt "--plot-results"]
    toy_fs 2 _)).
  reflexivity.
Defined.

Lemma last_file_files (its : list Item) : last_file its = last (files its).
Proof.
  induction its as [|it its IH]; [done|].
  simpl. rewrite IH.
  destruct it; simpl; try by destruct (last (files its)).
  destruct (files its) as [|q l]; [done|].
  change (last (path :: q :: l)) with (last (q :: l)).
  by destruct (last (q :: l)) eqn:E; [|apply last_None in E].
Qed.

Lemma minimize_ext (lib : Library) (ns ns' : gmap string Value) (fs : FS) :
  ns !! "filename" = ns' !! "filename" ->
  ns !! "save_data" = ns' !! "save_data" ->
  ns !! "plot" = ns' !! "plot" ->
  minimize lib ns fs = minimize lib ns' fs.
Proof.
  intros H1 H2 H3. unfold minimize, getattr. by rewrite H1, H2, H3.
Qed.

(** X14. For the command lines the parser accepts, only this counts: the
    paths given to [-i], in their order; the last value of [--save-data],
    if any; and whether [--plot-results] occurs. Two such command lines
    that agree on these give the same run: the same result, the same file
    system and the same trace. The place of an option among the others
    and its repetition change nothing. *)
Theorem options_in_any_order
    (lib : Library) (argv argv' : list Token) (its its' : list Item) (fs : FS) :
  matches argv its -> matches argv' its' ->
  extra_tokens its = [] -> extra_tokens its' = [] ->
  files its <> [] ->
  Forall (fun q => path_exists fs q = true) (files its) ->
  files its = files its' ->
  last_save its = last_save its' ->
  existsb is_plot its = existsb is_plot its' ->
  sscha lib argv fs = sscha lib argv' fs.
Proof.
  intros Hm Hm' Hx Hx' Hne Hall Hf Hs Hp.
  unfold sscha. rewrite !bind_eq.
  rewrite (parse_args_complete _ _ _ Hm Hx Hne Hall).
  rewrite (parse_args_complete argv' its' fs Hm' Hx'); [|by rewrite <- Hf..].
  rewrite Hf.
  assert (E : minimize lib (namespace (apply_items its (initial_state parser))) fs
              = minimize lib (namespace (apply_items its' (initial_state parser))) fs).
  { apply minimize_ext.
    - by rewrite !ns_filename, !last_file_files, Hf.
    - by rewrite !ns_save_data, Hs.
    - rewrite !(ns_plot _ _ false) by reflexivity. by rewrite Hp. }
  by rewrite E.
Qed.

Lemma options_in_any_order_witness :
  sscha toy_library
    [Opt "--plot-results"; Opt "-i"; Arg "input.in"; Opt "--plot-results"]
    toy_fs
  = sscha toy_library [Opt "-i"; Arg "input.in"; Opt "--plot-results"] toy_fs.
Proof.
  refine (options_in_any_order toy_library
    [Opt "--plot-results"; Opt "-i"; Arg "input.in"; Opt "--plot-results"]
    [Opt "-i"; Arg "input.in"; Opt "--plot-results"]
    [IPlot; IFile "input.in"; IPlot] [IFile "input.in"; IPlot] toy_fs
    _ _ _ _ _ _ _ _ _).
  - repeat constructor.
  - repeat constructor.
  - reflexivity.
  - reflexivity.
  - discriminate.
  - repeat constructor.
  - reflexivity.
  - reflexivity.
  - reflexivity.
Defined.

Lemma consume_checks n : forall argv st fs q o,
  length argv <= n ->
  In (CExists q, o) (trace (consume parser argv st fs)) ->
  adjacent (Opt "-i") (Arg q) argv.
Proof.
  induction n as [|n IH]; intros argv st fs q o Hlen Hin.
  { destruct argv; [|simpl in Hlen; lia]. destruct Hin. }
  destruct argv as [|[tok|s] rest]; [destruct Hin| |].
  2:{ simpl in Hlen. cbn [consume] in Hin.
      apply adjacent_cons. eapply IH; [|exact Hin]. lia. }
  simpl in Hlen. cbn [consume] in Hin.
  destruct (find_action parser tok) as [a|] eqn:Hfind.
  2:{ apply adjacent_cons. eapply IH; [|exact Hin]. lia. }
  rewrite find_action_parser in Hfind.
  destruct (String.eqb_spec tok "-h") as [->|?]; simpl in Hfind.
  { injection Hfind as <-. simpl in Hin. in_cases; done. }
  destruct (String.eqb_spec tok "--help") as [->|?]; simpl in Hfind.
  { injection Hfind as <-. simpl in Hin. in_cases; done. }
  destruct (String.eqb_spec tok "-v") as [->|?]; simpl in Hfind.
  { injection Hfind as <-. simpl in Hin. in_cases; done. }
  destruct (String.eqb_spec tok "--version") as [->|?]; simpl in Hfind.
  { injection Hfind as <-. simpl in Hin. in_cases; done. }
  destruct (String.eqb_spec tok "-i") as [->|?]; simpl in Hfind.
  { injection Hfind as <-. cbn [action arg_filename] in Hin.
    destruct rest as [|[o'|v] rest']; try (simpl in Hin; in_cases; done).
    rewrite bind_eq in Hin. unfold get_value in Hin.
    cbn [type arg_filename] in Hin. rewrite is_valid_file_eq in Hin.
    destruct (path_exists fs v) eqn:Hex; unfold result, final_fs, trace in Hin;
      simpl in Hin.
    2:{ in_cases; try done. apply adjacent_here. }
    destruct Hin as [[= <- <-]|Hin]; [apply adjacent_here|].
    simpl in Hlen. apply adjacent_cons, adjacent_cons.
    eapply (IH rest' _ fs q o); [lia|exact Hin]. }
  destruct (String.eqb_spec tok "--plot-results") as [->|?]; simpl in Hfind.
  { injection Hfind as <-. cbn [action arg_plot] in Hin.
    apply adjacent_cons. eapply IH; [|exact Hin]. lia. }
  destruct (String.eqb_spec tok "--save-data") as [->|?]; simpl in Hfind;
    [|discriminate].
  injection Hfind as <-. cbn [action arg_save_data] in Hin.
  destruct rest as [|[o'|v] rest']; try (simpl in Hin; in_cases; done).
  rewrite bind_eq in Hin. unfold get_value in Hin.
  cbn [type arg_save_data] in Hin. unfold ret at 1 in Hin.
  unfold result, final_fs, trace in Hin. simpl in Hin, Hlen.
  apply adjacent_cons, adjacent_cons.
  eapply (IH rest' _ fs q o); [lia|exact Hin].
Qed.

Lemma parse_args_checks argv fs q o :
  In (CExists q, o) (trace (parse_args parser argv fs)) ->
  adjacent (Opt "-i") (Arg q) argv.
Proof.
  rewrite parse_args_eq. intros Hin.
  apply (consume_checks (length argv) argv (initial_state parser) fs q o (le_n _)).
  destruct (consume parser argv (initial_state parser) fs) as [[[st|e|n] fs1] t];
    try exact Hin.
  unfold trace in *. simpl in *.
  destruct (existsb _ _); [destruct (extras st)|]; simpl in Hin;
    try exact Hin;
    rewrite in_app_iff in Hin; simpl in Hin;
    (destruct Hin as [Hin|[Hin|Hin]]; [exact Hin|discriminate|destruct Hin]).
Qed.

(** X15. [os.path.exists] is asked about the strings that follow [-i] on
    the command line and about nothing else, and it returns: the path
    given to [--save-data] is never checked, and after the arguments are
    parsed no path is checked again. *)
Theorem only_input_paths_are_checked
    (lib : Library) (argv : list Token) (fs : FS) (q : string) (o : Outcome) :
  In (CExists q, o) (trace (sscha lib argv fs)) ->
  adjacent (Opt "-i") (Arg q) argv /\ o = Returned.
Proof.
  intros Hin.
  assert (Hp : In (CExists q, o) (trace (parse_args parser argv fs))).
  { destruct (sscha_cases lib argv fs) as (qs & Hq & [(tail & He & _ & Hno & _ & Ht)
      |(its & p' & t & Hm & Hf & Hx & Hl & Hparse & HR & Ht)]).
    - unfold sscha in Hin. rewrite bind_eq in Hin.
      destruct (parse_args parser argv fs) as [[[ns|e|n] fs1] t1];
        try exact Hin.
      by destruct (Hno ns).
    - rewrite Ht, in_app_iff in Hin. destruct Hin as [Hin|Hin].
      + by rewrite Hparse.
      + by destruct (Run_calls _ _ _ _ _ _ _ _ _ _ HR Hin). }
  split; [by eapply parse_args_checks|].
  destruct (parse_args_shape argv fs) as (r & qs & tail & E & _ & He & _).
  rewrite E in Hp. unfold trace in Hp. simpl in Hp.
  rewrite in_app_iff in Hp. destruct Hp as [Hp|Hp].
  - by apply In_checks in Hp as (? & _ & ? & _).
  - inversion He; subst; simpl in Hp;
      repeat match goal with
             | H : _ \/ _ |- _ => destruct H
             | H : False |- _ => destruct H
             end; congruence.
Qed.

Lemma only_input_paths_are_checked_witness :
  adjacent (Opt "-i") (Arg "input.in")
    [Opt "--save-data"; Arg "out.dat"; Opt "-i"; Arg "input.in"]
  /\ Returned = Returned.
Proof.
  refine (only_input_paths_are_checked toy_library
    [Opt "--save-data"; Arg "out.dat"; Opt "-i"; Arg "input.in"] toy_fs
    "input.in" Returned _).
  vm_compute. auto.
Defined.
